(** * gabp: the matrix layer of [include/gabp/matrix.hh]

    A shallow embedding of the [gmat] namespace: the abstract [matrix]
    capability, its two realisations ([basematrix], which owns an array, and
    [submatrix], a wrapping view that shares its parent), and the free
    algorithms [det], [inverse], [matmul], [matadd] together with the member
    comparisons [operator==] and [cmppred].

    Dense arrays live in a store indexed by object identity, so that two
    views over one parent, or a destination that is also an operand, really
    share their cells.  An access that C++ leaves undefined (an index outside
    the array, a reduction modulo a zero extent) yields [None]. *)

From Stdlib Require Import ZArith NArith Lia.
From stdpp Require Import base option list gmap strings.

(** ** Element type *)

(** The operations the header applies to the template parameter [T]:
    construction from the literal [0], [+=], [-=], [*] and [!=]. *)
Class Scalar (T : Type) := {
  zero : T;
  add : T → T → T;
  sub : T → T → T;
  mul : T → T → T;
  neq : T → T → bool
}.

(** Integer elements under exact arithmetic. *)
#[export] Instance Z_scalar : Scalar Z := {|
  zero := 0%Z;
  add := Z.add;
  sub := Z.sub;
  mul := Z.mul;
  neq := λ x y, negb (Z.eqb x y)
|}.

(** ** [size_t] *)

(** [size_t] is the 64-bit unsigned type of the LP64 targets the project
    builds for; its values are the naturals below [2^64]. *)
Definition size_t := N.
Definition SIZE_BITS : N := 64.
Definition SIZE_MODULUS : N := 2 ^ SIZE_BITS.

(** [a + b] on [size_t]: unsigned addition wraps. *)
Definition size_add (a b : size_t) : size_t := ((a + b) mod SIZE_MODULUS)%N.

(** ** Objects and the store *)

(** A dense matrix object is identified by a location; the store maps it to
    its array [T m_elements[m][n]], a list of rows. *)
Definition loc := nat.

(** [matrix<T, m, n>]: either a [basematrix<T, m, n>] object, or a
    [submatrix<T, m, n, M, N>] holding the shared pointer [m_parent] to a
    [matrix<T, M, N>] and the offsets [m_i], [m_j].  The extents are template
    parameters, hence part of the type. *)
Inductive matrix (m n : nat) : Type :=
  | basematrix (l : loc)
  | submatrix (M N : nat) (m_parent : matrix M N) (m_i m_j : size_t).

Arguments basematrix {m n} l.
Arguments submatrix {m n} M N m_parent m_i m_j.

(** A storage cell: the dense object, the row and the column. *)
Definition cell : Type := loc * nat * nat.

(** The store: each dense object's array, by location. *)
Abbreviation store T := (gmap loc (list (list T))).

(** Loop counters are [int] and are converted to [size_t] when they are
    passed to [get] and [set]; the extents they run up to are template
    constants within the range of [int]. *)
Definition index (i : nat) : size_t := N.of_nat i.

(** ** Loops *)

(** [for (int i = 0; i < n; ++i) body], threading the loop-carried state:
    the store for the writing loops, the accumulator for the reading ones. *)
Fixpoint for_each {I A} (idx : list I) (body : I → A → option A) (a : A)
    : option A :=
  match idx with
  | [] => Some a
  | i :: rest => a' ← body i a; for_each rest body a'
  end.

Definition for_int {A} (n : nat) (body : nat → A → option A) (a : A)
    : option A :=
  for_each (seq 0 n) body a.

(** The comparison loops: [if (!test) return false;] in the body and
    [return true] after the loop. *)
Fixpoint all_of (idx : list nat) (test : nat → option bool) : option bool :=
  match idx with
  | [] => Some true
  | i :: rest => b ← test i; if b : bool then all_of rest test else Some false
  end.

Definition all_int (n : nat) (test : nat → option bool) : option bool :=
  all_of (seq 0 n) test.

Section Matrix.
Context {T : Type} `{Scalar T}.

(** *** [get] and [set] *)

(** [basematrix::get] returns [m_elements[i][j]]; [submatrix::get] returns
    [m_parent->get((i + m_i) % M, (j + m_j) % N)]. *)
Fixpoint get {m n} (mat : matrix m n) (i j : size_t) (s : store T) : option T :=
  match mat with
  | basematrix l =>
      rows ← s !! l; row ← rows !! N.to_nat i; row !! N.to_nat j
  | submatrix M N m_parent m_i m_j =>
      if decide (M = 0 ∨ N = 0) then None
      else get m_parent (size_add i m_i mod N.of_nat M)%N
                        (size_add j m_j mod N.of_nat N)%N s
  end.

(** [basematrix::set] performs [m_elements[i][j] = value] and returns the
    stored value; [submatrix::set] delegates to the parent like [get]. *)
Fixpoint set {m n} (mat : matrix m n) (i j : size_t) (value : T) (s : store T)
    : option (T * store T) :=
  match mat with
  | basematrix l =>
      rows ← s !! l; row ← rows !! N.to_nat i; _ ← row !! N.to_nat j;
      Some (value,
            <[l := <[N.to_nat i := <[N.to_nat j := value]> row]> rows]> s)
  | submatrix M N m_parent m_i m_j =>
      if decide (M = 0 ∨ N = 0) then None
      else set m_parent (size_add i m_i mod N.of_nat M)%N
                        (size_add j m_j mod N.of_nat N)%N value s
  end.

(** [submatrix(mat)]: the view that mirrors [mat], offsets [0, 0]. *)
Definition submatrix_mirror {m n M N} (mat : matrix M N) : matrix m n :=
  submatrix M N mat 0%N 0%N.

(** *** Construction of dense matrices *)

(** A new dense object takes the first unused location. *)
Definition alloc {m n} (rows : list (list T)) (s : store T)
    : matrix m n * store T :=
  let l := fresh (dom s) in (basematrix l, <[l := rows]> s).

(** [basematrix()]: the array is not initialised; it holds whatever values
    [junk] the memory held. *)
Definition basematrix_default (m n : nat) (junk : nat → nat → T) (s : store T)
    : matrix m n * store T :=
  alloc ((λ i, junk i <$> seq 0 n) <$> seq 0 m) s.

(** [basematrix(T ex)]: [m * n] copies of the exemplar. *)
Definition basematrix_fill (m n : nat) (ex : T) (s : store T)
    : matrix m n * store T :=
  alloc (replicate m (replicate n ex)) s.

(** The rows of a row-major buffer: [n] elements each, [m] of them. *)
Fixpoint rows_of (m n : nat) (buf : list T) : list (list T) :=
  match m with
  | 0 => []
  | S m' => take n buf :: rows_of m' n (drop n buf)
  end.

(** [basematrix(T* ptr)]: copies [m * n] elements from the buffer; reading
    past its end is undefined. *)
Definition basematrix_of_ptr (m n : nat) (ptr : list T) (s : store T)
    : option (matrix m n * store T) :=
  if decide (m * n ≤ length ptr) then Some (alloc (rows_of m n ptr) s)
  else None.

(** [basematrix(const submatrix<T, m, n, M, N>& other)]: every cell of the
    new array is assigned [other.get(i, j)], rows outermost. *)
Definition basematrix_of_submatrix {m n} (other : matrix m n) (s : store T)
    : option (matrix m n * store T) :=
  rows ← mapM (λ i, mapM (λ j, get other (index i) (index j) s) (seq 0 n))
              (seq 0 m);
  Some (alloc rows s).

(** *** Comparisons *)

(** [matrix::operator==]: returns [false] at the first pair of entries
    with [this->get(i, j) != right.get(i, j)], [true] after the loops. *)
Definition operator_eq {m n} (this right : matrix m n) (s : store T)
    : option bool :=
  all_int m (λ i, all_int n (λ j,
    x ← get this (index i) (index j) s;
    y ← get right (index i) (index j) s;
    Some (negb (neq x y)))).

(** [matrix::cmppred]: the same loops with [!pred(...)] as the exit test. *)
Definition cmppred {m n} (this right : matrix m n) (pred : T → T → bool)
    (s : store T) : option bool :=
  all_int m (λ i, all_int n (λ j,
    x ← get this (index i) (index j) s;
    y ← get right (index i) (index j) s;
    Some (pred x y))).

(** *** Determinant *)

(** One turn of [det]'s loop on column [j]: [sd] is the determinant of the
    view, the entry [mat->get(0, j)] is read after it, and the product is
    added or subtracted according to [plus], which then flips. *)
Definition det_step (sd x : T) (st : T * bool) : T * bool :=
  let '(acc, plus) := st in
  (if plus then add acc (mul x sd) else sub acc (mul x sd), negb plus).

(** [det] on [matrix<T, n, n>] with [n = S k].  The overload for
    [matrix<T, 1, 1>] returns [mat->get(0, 0)]; the general template builds,
    for every column [j], the view
    [submatrix<T, n - 1, n - 1, n, n>(mat, 1, j + 1)] and recurses on it. *)
Fixpoint det {k : nat} : matrix (S k) (S k) → store T → option T :=
  match k with
  | 0 => λ mat s, get mat 0%N 0%N s
  | S k' => λ mat s,
      st ← for_int (S (S k')) (λ j st,
              let sub : matrix (S k') (S k') :=
                submatrix (S (S k')) (S (S k')) mat 1%N (index (j + 1)) in
              sd ← det sub s;
              x ← get mat 0%N (index j) s;
              Some (det_step sd x st)) (zero, true);
      Some (fst st)
  end.

(** *** Inverse *)

(** [inverse] has no effect and returns [false]. *)
Definition inverse {n} (src dest : matrix n n) (s : store T)
    : option (bool * store T) :=
  Some (false, s).

(** *** Product and sum *)

(** [matmul]: for every cell of [dest], accumulate
    [left.get(i, k) * right.get(k, j)] over [k] into [a], starting from
    [0], then [dest.set(i, j, a)]. *)
Definition matmul {m n o} (left : matrix m n) (right : matrix n o)
    (dest : matrix m o) (s : store T) : option (store T) :=
  for_int m (λ i s,
    for_int o (λ j s,
      a ← for_int n (λ k a,
             x ← get left (index i) (index k) s;
             y ← get right (index k) (index j) s;
             Some (add a (mul x y))) zero;
      snd <$> set dest (index i) (index j) a s) s) s.

(** [matadd]: [dest.set(i, j, left.get(i, j) + right.get(i, j))] for every
    cell. *)
Definition matadd {m n} (left right dest : matrix m n) (s : store T)
    : option (store T) :=
  for_int m (λ i s,
    for_int n (λ j s,
      x ← get left (index i) (index j) s;
      y ← get right (index i) (index j) s;
      snd <$> set dest (index i) (index j) (add x y) s) s) s.

End Matrix.

(** ** Vocabulary of the specification *)

(** The storage cell behind coordinate [(i, j)] of a matrix: views are
    followed down to the dense object they end at. *)
Fixpoint resolve {m n} (mat : matrix m n) (i j : size_t) : option cell :=
  match mat with
  | basematrix l => Some (l, N.to_nat i, N.to_nat j)
  | submatrix M N m_parent m_i m_j =>
      if decide (M = 0 ∨ N = 0) then None
      else resolve m_parent (size_add i m_i mod N.of_nat M)%N
                            (size_add j m_j mod N.of_nat N)%N
  end.

(** The valid coordinates of an [m × n] matrix, in the order the loops
    visit them. *)
Definition positions (m n : nat) : list (nat * nat) :=
  i ← seq 0 m; (λ j, (i, j)) <$> seq 0 n.

Definition cell_at {m n} (mat : matrix m n) (p : nat * nat) : option cell :=
  resolve mat (index p.1) (index p.2).

(** The cells a matrix denotes through its valid coordinates. *)
Definition footprint {m n} (mat : matrix m n) : list (option cell) :=
  cell_at mat <$> positions m n.

(** No cell of [a] is a cell of [b]. *)
Definition separated {m n m' n'} (a : matrix m n) (b : matrix m' n') : Prop :=
  Forall (λ c, c ∉ footprint b) (footprint a).

(** An extent is a [size_t] template argument. *)
Definition fits (m : nat) : bool := bool_decide (N.of_nat m < SIZE_MODULUS)%N.

Section Vocabulary.
Context {T : Type} `{Scalar T}.

Definition load (c : cell) (s : store T) : option T :=
  rows ← s !! c.1.1; row ← rows !! c.1.2; row !! c.2.

Definition store_cell (c : cell) (v : T) (s : store T) : option (T * store T) :=
  rows ← s !! c.1.1; row ← rows !! c.1.2; _ ← row !! c.2;
  Some (v, <[c.1.1 := <[c.1.2 := <[c.2 := v]> row]> rows]> s).

(** A matrix is well formed in a store when its extents are [size_t]
    values, every dense object it reaches holds an array of its extents,
    and every view has a parent with non-zero extents (so that [%] is
    defined). *)
Fixpoint wf {m n} (mat : matrix m n) (s : store T) : bool :=
  fits m && fits n &&
  match mat with
  | basematrix l =>
      match s !! l with
      | Some rows =>
          bool_decide (length rows = m)
          && forallb (λ row, bool_decide (length row = n)) rows
      | None => false
      end
  | submatrix M N m_parent _ _ =>
      bool_decide (0 < M) && bool_decide (0 < N) && wf m_parent s
  end.

(** Every valid coordinate denotes a cell that the store holds: every [get]
    and [set] within the extents has defined behaviour. *)
Definition defined {m n} (mat : matrix m n) (s : store T) : Prop :=
  ∀ p, p ∈ positions m n → ∃ c, cell_at mat p = Some c ∧ is_Some (load c s).

(** The entry at a valid coordinate. *)
Definition entry {m n} (mat : matrix m n) (s : store T) (i j : nat) : T :=
  default zero (get mat (index i) (index j) s).

(** Two matrices of the same extents show the same entries. *)
Definition agree {m n} (a : matrix m n) (s : store T)
    (a' : matrix m n) (s' : store T) : Prop :=
  ∀ i j, i < m → j < n →
    get a (index i) (index j) s = get a' (index i) (index j) s'.

(** [f 0 + f 1 + ... + f (n - 1)], accumulated from [0] in this order. *)
Definition sum_from_zero (n : nat) (f : nat → T) : T :=
  fold_left (λ a k, add a (f k)) (seq 0 n) zero.

(** The store [s'] differs from [s] at most in the listed cells. *)
Definition only_changed (cs : list (option cell)) (s s' : store T) : Prop :=
  (∀ c, Some c ∉ cs → load c s' = load c s) ∧
  (∀ c, is_Some (load c s') ↔ is_Some (load c s)).

(** The body shared by the loops of [matmul] and [matadd]: compute the
    value of one cell of [dest] and store it. *)
Definition fill_cell {m n} (dest : matrix m n)
    (val : nat * nat → store T → option T) (p : nat * nat) (s : store T)
    : option (store T) :=
  a ← val p s; snd <$> set dest (index p.1) (index p.2) a s.

End Vocabulary.

(** *** The determinant *)

(** The reference that [det] is compared with, in the words of the
    specification's glossary.  The minor of [a] that deletes row [0] and
    column [j], the remaining columns in their order: *)
Definition minor (j : nat) (a : list (list Z)) : list (list Z) :=
  (λ row, take j row ++ drop (S j) row) <$> tail a.

(** and the determinant of an [n × n] matrix as the signed sum, along the
    first row, of the entries times the determinants of their minors. *)
Fixpoint determinant (n : nat) (a : list (list Z)) : Z :=
  match n with
  | 0 => 1%Z
  | S n' =>
      foldr Z.add 0%Z
        ((λ j, ((-1) ^ Z.of_nat j * ((a !!! 0%nat) !!! j) * determinant n' (minor j a))%Z)
           <$> seq 0 n)
  end.

(** *** Printing *)

Section Printing.
Context {T : Type} `{Scalar T}.

(** The characters written by the escapes [\t] and [\n]. *)
Definition TAB : string := String (Ascii.ascii_of_nat 9) EmptyString.
Definition NL : string := String (Ascii.ascii_of_nat 10) EmptyString.

(** [for (size_t j = 0; j < n; ++j) out << "\t" << mat.get(i, j);]: the
    characters go to the end of the stream [out]; [show] is what
    [operator<<] of the stream writes for an element. *)
Definition print_row (show : T → string) {m n} (mat : matrix m n) (i : size_t)
    (s : store T) (out : string) : option string :=
  for_int n (λ j out, x ← get mat i (index j) s;
                      Some (out +:+ TAB +:+ show x)) out.

(** [operator<<(std::ostream&, const matrix<T, m, n>&)]: ["[ "], row [0],
    then every row from [1] on after a line break and two spaces, and the
    closing bracket. *)
Definition operator_shl (show : T → string) {m n} (mat : matrix m n)
    (s : store T) (out : string) : option string :=
  out ← print_row show mat 0%N s (out +:+ "[ ");
  out ← for_each (seq 1 (m - 1))
         (λ i out, print_row show mat (index i) s (out +:+ NL +:+ "  ")) out;
  Some (out +:+ TAB +:+ " ]" +:+ NL).

End Printing.

(** *** Further vocabulary *)

(** [f 0 * f 1 * ... * f (n - 1)]. *)
Definition prod_upto (n : nat) (f : nat → Z) : Z :=
  fold_left (λ a k, (a * f k)%Z) (seq 0 n) 1%Z.

(** * Properties *)

(** ** Loops *)

Lemma for_each_app {I A} (l1 l2 : list I) (body : I → A → option A) a :
  for_each (l1 ++ l2) body a = for_each l1 body a ≫= for_each l2 body.
Proof.
  revert a. induction l1 as [|i l1 IH]; intros a; simpl; [done|].
  destruct (body i a); simpl; auto.
Qed.

Lemma for_each_fmap {I J A} (f : I → J) l (body : J → A → option A) a :
  for_each (f <$> l) body a = for_each l (λ i, body (f i)) a.
Proof.
  revert a. induction l as [|i l IH]; intros a; simpl; [done|].
  destruct (body (f i) a); simpl; auto.
Qed.

Lemma for_each_bind {I J A} (l : list I) (g : I → list J)
    (body : J → A → option A) a :
  for_each (l ≫= g) body a = for_each l (λ i x, for_each (g i) body x) a.
Proof.
  revert a. induction l as [|i l IH]; intros a; [done|].
  change ((i :: l) ≫= g) with (g i ++ (l ≫= g)).
  rewrite for_each_app. simpl.
  destruct (for_each (g i) body a); simpl; auto.
Qed.

Lemma for_int_S {A} n (body : nat → A → option A) a :
  for_int (S n) body a = for_int n body a ≫= body n.
Proof.
  unfold for_int. rewrite seq_S, for_each_app. simpl.
  destruct (for_each (seq 0 n) body a) as [x|]; simpl; [|done].
  by destruct (body n x).
Qed.

(** Two loops whose bodies agree on every state that the first one can
    reach compute the same result. *)
Lemma for_each_ext_inv {I A} (Inv : A → Prop) (l : list I)
    (body body' : I → A → option A) a :
  Inv a →
  (∀ i x, i ∈ l → Inv x → body i x = body' i x) →
  (∀ i x y, i ∈ l → Inv x → body i x = Some y → Inv y) →
  for_each l body a = for_each l body' a.
Proof.
  revert a. induction l as [|i l IH]; intros a Ha Heq Hpres; simpl; [done|].
  rewrite <-(Heq i a) by (done || left).
  destruct (body i a) as [y|] eqn:Hy; simpl; [|done].
  apply IH.
  - eapply Hpres; [left| |]; done.
  - intros ???; apply Heq; by right.
  - intros ????; apply Hpres; by right.
Qed.

Lemma for_each_ext {I A} (l : list I) (body body' : I → A → option A) a :
  (∀ i x, i ∈ l → body i x = body' i x) →
  for_each l body a = for_each l body' a.
Proof.
  intros Heq. apply (for_each_ext_inv (λ _, True)); auto.
Qed.

Lemma for_int_nested {A} m n (body : nat * nat → A → option A) a :
  for_int m (λ i x, for_int n (λ j y, body (i, j) y) x) a
  = for_each (positions m n) body a.
Proof.
  unfold for_int, positions. rewrite for_each_bind.
  apply for_each_ext. intros i x _. by rewrite for_each_fmap.
Qed.

Lemma for_int_ext {A} n (body body' : nat → A → option A) a :
  (∀ i x, i < n → body i x = body' i x) →
  for_int n body a = for_int n body' a.
Proof.
  intros Heq. apply for_each_ext. intros i x Hi. apply Heq.
  apply elem_of_seq in Hi. lia.
Qed.

(** The comparison loops return [true] exactly when every test does. *)
Lemma all_of_spec (l : list nat) (test : nat → option bool) :
  (∀ i, i ∈ l → is_Some (test i)) →
  ∃ b, all_of l test = Some b ∧ (b = true ↔ ∀ i, i ∈ l → test i = Some true).
Proof.
  induction l as [|i l IH]; intros Hdef; simpl.
  - exists true. split; [done|]. split; [|done]. intros _ i Hi. by apply elem_of_nil in Hi.
  - destruct (Hdef i) as [b Hb]; [left|]. rewrite Hb. simpl.
    destruct b.
    + destruct IH as (b & -> & Hiff); [intros; apply Hdef; by right|].
      exists b. split; [done|]. rewrite Hiff. split.
      * intros Hall k [->|Hk]%elem_of_cons; auto.
      * intros Hall k Hk. apply Hall. by right.
    + exists false. split; [done|]. split; [done|].
      intros Hall. specialize (Hall i). rewrite Hb in Hall.
      discriminate Hall. left.
Qed.

Lemma all_int_spec n (test : nat → option bool) :
  (∀ i, i < n → is_Some (test i)) →
  ∃ b, all_int n test = Some b ∧ (b = true ↔ ∀ i, i < n → test i = Some true).
Proof.
  intros Hdef. destruct (all_of_spec (seq 0 n) test) as (b & Hb & Hiff).
  - intros i Hi%elem_of_seq. apply Hdef. lia.
  - exists b. split; [done|]. rewrite Hiff. split.
    + intros Hall i Hi. apply Hall, elem_of_seq. lia.
    + intros Hall i Hi%elem_of_seq. apply Hall. lia.
Qed.

Lemma elem_of_positions m n i j : (i, j) ∈ positions m n ↔ i < m ∧ j < n.
Proof.
  unfold positions. rewrite list_elem_of_bind. split.
  - intros (i' & Hin & Hi'). apply list_elem_of_fmap in Hin as (j' & [= -> ->] & Hj').
    apply elem_of_seq in Hi', Hj'. lia.
  - intros [Hi Hj]. exists i. split.
    + apply list_elem_of_fmap. exists j. split; [done|]. apply elem_of_seq. lia.
    + apply elem_of_seq. lia.
Qed.

(** ** Cells *)

Section Memory.
Context {T : Type} `{Scalar T}.

(** [get] and [set] act on the cell their coordinate resolves to. *)
Lemma get_resolve {m n} (mat : matrix m n) i j (s : store T) :
  get mat i j s = resolve mat i j ≫= λ c, load c s.
Proof.
  revert i j. induction mat as [m n l|m n M N p IH oi oj]; intros i j; simpl.
  - done.
  - case_decide; [done|]. apply IH.
Qed.

Lemma set_resolve {m n} (mat : matrix m n) i j v (s : store T) :
  set mat i j v s = resolve mat i j ≫= λ c, store_cell c v s.
Proof.
  revert i j. induction mat as [m n l|m n M N p IH oi oj]; intros i j; simpl.
  - done.
  - case_decide; [done|]. apply IH.
Qed.

Lemma store_cell_inv c v (s : store T) x s' :
  store_cell c v s = Some (x, s') →
  x = v ∧ is_Some (load c s) ∧ load c s' = Some v ∧
  ∀ c', c' ≠ c → load c' s' = load c' s.
Proof.
  destruct c as [[l i] j]. unfold store_cell, load. simpl.
  destruct (s !! l) as [rows|] eqn:Hrows; simpl; [|done].
  destruct (rows !! i) as [row|] eqn:Hrow; simpl; [|done].
  destruct (row !! j) as [old|] eqn:Hold; simpl; [|done].
  intros [= <- <-]. split; [done|]. split; [by eexists|]. split.
  - rewrite lookup_insert_eq. simpl.
    rewrite list_lookup_insert_eq by (by eapply lookup_lt_Some). simpl.
    apply list_lookup_insert_eq. by eapply lookup_lt_Some.
  - intros [[l' i'] j'] Hne. simpl.
    destruct (decide (l' = l)) as [->|Hl]; [|by rewrite lookup_insert_ne].
    rewrite lookup_insert_eq, Hrows. simpl.
    destruct (decide (i' = i)) as [->|Hi]; [|by rewrite list_lookup_insert_ne].
    rewrite list_lookup_insert_eq by (by eapply lookup_lt_Some).
    rewrite Hrow. simpl.
    apply list_lookup_insert_ne. congruence.
Qed.

Lemma store_cell_Some c v (s : store T) :
  is_Some (load c s) → ∃ s', store_cell c v s = Some (v, s').
Proof.
  destruct c as [[l i] j]. unfold store_cell, load. simpl.
  destruct (s !! l) as [rows|]; simpl; [|by intros [??]].
  destruct (rows !! i) as [row|]; simpl; [|by intros [??]].
  destruct (row !! j) as [old|]; simpl; [|by intros [??]].
  eauto.
Qed.

(** Storing into a cell changes that cell only. *)
Lemma store_cell_only_changed c v (s : store T) x s' :
  store_cell c v s = Some (x, s') → only_changed [Some c] s s'.
Proof.
  intros (-> & Hold & Hnew & Hframe)%store_cell_inv. split.
  - intros c' Hc'. apply Hframe. intros ->. apply Hc'. left.
  - intros c'. destruct (decide (c' = c)) as [->|Hne].
    + by rewrite Hnew.
    + by rewrite Hframe.
Qed.

Lemma only_changed_refl cs (s : store T) : only_changed cs s s.
Proof. by split. Qed.

Lemma only_changed_trans cs1 cs2 cs (s1 s2 s3 : store T) :
  only_changed cs1 s1 s2 → only_changed cs2 s2 s3 →
  (∀ c, c ∈ cs1 ∨ c ∈ cs2 → c ∈ cs) →
  only_changed cs s1 s3.
Proof.
  intros [Hf1 Hd1] [Hf2 Hd2] Hsub. split.
  - intros c Hc. rewrite Hf2, Hf1; [done| |]; intros ?; apply Hc, Hsub; auto.
  - intros c. by rewrite Hd2, Hd1.
Qed.

(** Every valid coordinate of a well-formed matrix resolves to a cell that
    the store holds. *)
Lemma wf_resolve {m n} (mat : matrix m n) (s : store T) i j :
  wf mat s = true → (i < N.of_nat m)%N → (j < N.of_nat n)%N →
  ∃ c, resolve mat i j = Some c ∧ is_Some (load c s).
Proof.
  revert i j. induction mat as [m n l|m n M N p IH oi oj]; intros i j; simpl.
  - rewrite !andb_true_iff. intros [_ Hshape] Hi Hj.
    exists (l, N.to_nat i, N.to_nat j). split; [done|].
    unfold load. simpl.
    destruct (s !! l) as [rows|]; [|done].
    apply andb_true_iff in Hshape as [Hlen%bool_decide_eq_true_1 Hrows].
    destruct (lookup_lt_is_Some_2 rows (N.to_nat i)) as [row Hrow]; [lia|].
    simpl. rewrite Hrow. simpl.
    rewrite forallb_forall in Hrows.
    specialize (Hrows row). rewrite bool_decide_eq_true in Hrows.
    apply lookup_lt_is_Some_2. rewrite Hrows; [lia|].
    apply list_elem_of_In. by eapply list_elem_of_lookup_2.
  - rewrite !andb_true_iff.
    intros [_ [[HM%bool_decide_eq_true_1 HN%bool_decide_eq_true_1] Hp]] Hi Hj.
    case_decide; [lia|].
    apply IH; [done| |]; apply N.mod_lt; lia.
Qed.

Lemma wf_fits {m n} (mat : matrix m n) (s : store T) :
  wf mat s = true →
  (N.of_nat m < SIZE_MODULUS)%N ∧ (N.of_nat n < SIZE_MODULUS)%N.
Proof.
  destruct mat; simpl; rewrite !andb_true_iff; unfold fits;
    rewrite !bool_decide_eq_true; tauto.
Qed.

Lemma wf_defined {m n} (mat : matrix m n) (s : store T) :
  wf mat s = true → defined mat s.
Proof.
  intros Hwf [i j] [Hi Hj]%elem_of_positions.
  apply wf_resolve; [done|simpl; unfold index; lia..].
Qed.

Lemma defined_get {m n} (mat : matrix m n) (s : store T) i j :
  defined mat s → i < m → j < n →
  get mat (index i) (index j) s = Some (entry mat s i j).
Proof.
  intros Hdef Hi Hj.
  destruct (Hdef (i, j)) as (c & Hc & [v Hv]); [by apply elem_of_positions|].
  unfold entry. rewrite get_resolve. unfold cell_at in Hc. simpl in Hc.
  rewrite Hc. simpl. by rewrite Hv.
Qed.

Lemma defined_only_changed {m n} (mat : matrix m n) cs (s s' : store T) :
  only_changed cs s s' → defined mat s → defined mat s'.
Proof.
  intros [_ Hdom] Hdef p Hp. destruct (Hdef p Hp) as (c & Hc & Hload).
  exists c. split; [done|]. by apply Hdom.
Qed.

End Memory.

(** ** Filling a destination cell by cell *)

Section Fill.
Context {T : Type} `{Scalar T}.

Lemma for_int_fold n (body : nat → T → option T) (f : nat → T) :
  (∀ k a, k < n → body k a = Some (add a (f k))) →
  for_int n body zero = Some (sum_from_zero n f).
Proof.
  induction n as [|n IH]; intros Hbody; [done|].
  rewrite for_int_S, IH by auto with lia. simpl.
  rewrite Hbody by lia.
  unfold sum_from_zero. by rewrite seq_S, fold_left_app.
Qed.

Lemma fill_cell_only_changed {m n} (dest : matrix m n) val p (s s' : store T) :
  fill_cell dest val p s = Some s' → only_changed [cell_at dest p] s s'.
Proof.
  unfold fill_cell. destruct (val p s) as [a|]; simpl; [|done].
  rewrite set_resolve. fold (cell_at dest p).
  destruct (cell_at dest p) as [c|]; simpl; [|done].
  destruct (store_cell c a s) as [[x s'']|] eqn:Hst; simpl; [|done].
  intros [= <-]. by eapply store_cell_only_changed.
Qed.

Lemma fill_cell_Some {m n} (dest : matrix m n) val p (s : store T) a c :
  val p s = Some a → cell_at dest p = Some c → is_Some (load c s) →
  ∃ s', fill_cell dest val p s = Some s' ∧
        only_changed [cell_at dest p] s s' ∧
        get dest (index p.1) (index p.2) s' = Some a.
Proof.
  intros Hval Hc Hload.
  destruct (store_cell_Some c a s Hload) as [s' Hs'].
  assert (Hfill : fill_cell dest val p s = Some s').
  { unfold fill_cell. rewrite Hval. simpl. rewrite set_resolve.
    fold (cell_at dest p). rewrite Hc. simpl. by rewrite Hs'. }
  exists s'. split; [done|]. split; [by eapply fill_cell_only_changed|].
  rewrite get_resolve. fold (cell_at dest p). rewrite Hc. simpl.
  by apply store_cell_inv in Hs' as (_ & _ & ? & _).
Qed.

Lemma get_frame {m n} (mat : matrix m n) cs (s s' : store T) p :
  only_changed cs s s' → cell_at mat p ∉ cs →
  get mat (index p.1) (index p.2) s' = get mat (index p.1) (index p.2) s.
Proof.
  intros [Hframe _] Hout. rewrite !get_resolve.
  fold (cell_at mat p). destruct (cell_at mat p) as [c|]; simpl; [|done].
  by apply Hframe.
Qed.

(** The loop over the cells still to do, started in a store where the
    cells already done hold their values: it terminates, changes cells of
    the destination only, and leaves every cell with its value, provided
    the destination's cells are pairwise distinct and the value of a cell
    does not depend on the cells written before it. *)
Lemma for_each_fill {m n} (dest : matrix m n) val (V : nat * nat → T)
    (s : store T) todo done s1 :
  NoDup (cell_at dest <$> (done ++ todo)) →
  (∀ p, p ∈ done ++ todo → ∃ c, cell_at dest p = Some c ∧ is_Some (load c s)) →
  (∀ pre p post s2, done ++ todo = pre ++ p :: post →
     only_changed (cell_at dest <$> pre) s s2 → val p s2 = Some (V p)) →
  only_changed (cell_at dest <$> done) s s1 →
  (∀ p, p ∈ done → get dest (index p.1) (index p.2) s1 = Some (V p)) →
  ∃ s', for_each todo (fill_cell dest val) s1 = Some s' ∧
        only_changed (cell_at dest <$> (done ++ todo)) s s' ∧
        ∀ p, p ∈ done ++ todo → get dest (index p.1) (index p.2) s' = Some (V p).
Proof.
  revert done s1. induction todo as [|p todo IH]; intros done s1 Hnd Hcells Hval Hs1 Hdone.
  - rewrite app_nil_r in *. by exists s1.
  - destruct (Hcells p) as (c & Hc & Hload); [apply elem_of_app; right; left|].
    assert (Hload1 : is_Some (load c s1)) by (by apply Hs1).
    destruct (fill_cell_Some dest val p s1 (V p) c) as (s2 & Hfill & Hch & Hget);
      [by eapply Hval|done..|].
    simpl. rewrite Hfill. simpl.
    replace (done ++ p :: todo) with ((done ++ [p]) ++ todo) in *
      by (by rewrite <-app_assoc).
    apply IH; [done..| |].
    + eapply only_changed_trans; [done..|].
      rewrite fmap_app. intros c' [Hc'|Hc']; apply elem_of_app; auto.
    + intros q [Hq| ->%list_elem_of_singleton]%elem_of_app; [|done].
      rewrite (get_frame dest _ s1 s2 q Hch); [by apply Hdone|].
      rewrite list_elem_of_singleton. intros Heq.
      rewrite <-app_assoc, fmap_app in Hnd.
      apply NoDup_app in Hnd as (_ & Hdisj & _).
      apply (Hdisj (cell_at dest q)); [by apply list_elem_of_fmap_2|].
      rewrite Heq. apply list_elem_of_fmap_2. left.
Qed.

(** The whole destination, from scratch. *)
Lemma fill_spec {m n} (dest : matrix m n) val (V : nat * nat → T) (s : store T) :
  defined dest s →
  NoDup (footprint dest) →
  (∀ pre p post s2, positions m n = pre ++ p :: post →
     only_changed (cell_at dest <$> pre) s s2 → val p s2 = Some (V p)) →
  ∃ s', for_each (positions m n) (fill_cell dest val) s = Some s' ∧
        only_changed (footprint dest) s s' ∧
        ∀ i j, i < m → j < n →
          get dest (index i) (index j) s' = Some (V (i, j)).
Proof.
  intros Hdef Hnd Hval.
  destruct (for_each_fill dest val V s (positions m n) [] s)
    as (s' & Hrun & Hch & Hget); simpl.
  - done.
  - done.
  - done.
  - apply only_changed_refl.
  - intros p Hp. by apply elem_of_nil in Hp.
  - exists s'. split; [done|]. split; [done|].
    intros i j Hi Hj. apply (Hget (i, j)). by apply elem_of_positions.
Qed.

(** Two fillings whose cell values agree in every store that differs from
    the initial one inside the destination only end in the same store. *)
Lemma fill_ext {m n} (dest : matrix m n) val val' (s : store T) :
  (∀ p s1, p ∈ positions m n → only_changed (footprint dest) s s1 →
     val p s1 = val' p s1) →
  for_each (positions m n) (fill_cell dest val) s
  = for_each (positions m n) (fill_cell dest val') s.
Proof.
  intros Hval.
  apply (for_each_ext_inv (λ s1, only_changed (footprint dest) s s1)).
  - apply only_changed_refl.
  - intros p s1 Hp Hs1. unfold fill_cell. by rewrite (Hval p s1).
  - intros p s1 s2 Hp Hs1 Hfill%fill_cell_only_changed.
    eapply only_changed_trans; [done..|].
    intros c [Hc| ->%list_elem_of_singleton]; [done|].
    by apply list_elem_of_fmap_2.
Qed.

Lemma separated_cell_at {m n m' n'} (a : matrix m n) (b : matrix m' n') p :
  separated a b → p ∈ positions m' n' → cell_at b p ∉ footprint a.
Proof.
  unfold separated. rewrite Forall_forall. intros Hsep Hp Hin.
  apply (Hsep _ Hin). by apply list_elem_of_fmap_2.
Qed.

Lemma matmul_fill {m n o} (left : matrix m n) (right : matrix n o)
    (dest : matrix m o) (s : store T) :
  matmul left right dest s
  = for_each (positions m o)
      (fill_cell dest (λ p s1,
         for_int n (λ k a,
           x ← get left (index p.1) (index k) s1;
           y ← get right (index k) (index p.2) s1;
           Some (add a (mul x y))) zero)) s.
Proof. unfold matmul. rewrite <-for_int_nested. reflexivity. Qed.

Lemma matadd_fill {m n} (left right dest : matrix m n) (s : store T) :
  matadd left right dest s
  = for_each (positions m n)
      (fill_cell dest (λ p s1,
         x ← get left (index p.1) (index p.2) s1;
         y ← get right (index p.1) (index p.2) s1;
         Some (add x y))) s.
Proof.
  unfold matadd. rewrite <-for_int_nested.
  apply for_int_ext; intros i x _. apply for_int_ext; intros j y _.
  unfold fill_cell. simpl.
  destruct (get left (index i) (index j) y); simpl; [|done].
  by destruct (get right (index i) (index j) y).
Qed.

End Fill.

(** ** Product and sum *)

Section Algorithms.
Context {T : Type} `{Scalar T}.

Lemma prefix_footprint {m n} (dest : matrix m n) pre p post c :
  positions m n = pre ++ p :: post → c ∈ cell_at dest <$> pre → c ∈ footprint dest.
Proof.
  intros Hsplit Hc. unfold footprint. rewrite Hsplit, fmap_app.
  apply elem_of_app. by left.
Qed.

Lemma split_position {m n} pre (p : nat * nat) post :
  positions m n = pre ++ p :: post → p ∈ positions m n.
Proof. intros ->. apply elem_of_app. right. left. Qed.

(** A matrix whose cells lie outside the destination reads the same
    before and after the destination is written. *)
Lemma get_separated {m n m' n'} (dest : matrix m n) (mat : matrix m' n')
    cs (s s' : store T) i j :
  separated dest mat → only_changed cs s s' →
  (∀ c, c ∈ cs → c ∈ footprint dest) →
  i < m' → j < n' →
  get mat (index i) (index j) s' = get mat (index i) (index j) s.
Proof.
  intros Hsep Hch Hsub Hi Hj.
  apply (get_frame mat cs s s' (i, j) Hch).
  intros Hin%Hsub. revert Hin.
  by apply separated_cell_at, elem_of_positions.
Qed.

(** [matmul] into a destination that shares no cell with the operands and
    whose own cells are pairwise distinct. *)
Lemma matmul_correct {m n o} (left : matrix m n) (right : matrix n o)
    (dest : matrix m o) (s : store T) :
  defined left s → defined right s → defined dest s →
  NoDup (footprint dest) → separated dest left → separated dest right →
  ∃ s', matmul left right dest s = Some s' ∧
        only_changed (footprint dest) s s' ∧
        ∀ i j, i < m → j < o →
          get dest (index i) (index j) s'
          = Some (sum_from_zero n (λ k, mul (entry left s i k) (entry right s k j))).
Proof.
  intros Hl Hr Hd Hnd Hsl Hsr. rewrite matmul_fill.
  apply (fill_spec dest _
    (λ p, sum_from_zero n (λ k, mul (entry left s p.1 k) (entry right s k p.2))));
    [done..|].
  intros pre [i j] post s2 Hsplit Hch. simpl.
  pose proof (split_position _ _ _ Hsplit) as [Hi Hj]%elem_of_positions.
  apply for_int_fold. intros k a Hk.
  rewrite (get_separated dest left _ s s2 i k Hsl Hch),
    (get_separated dest right _ s s2 k j Hsr Hch);
    try done; try (intros c; by eapply prefix_footprint).
  by rewrite !defined_get.
Qed.

(** [matadd] with the destination being the left operand itself. *)
Lemma matadd_in_place_correct {m n} (left right : matrix m n) (s : store T) :
  defined left s → defined right s →
  NoDup (footprint left) → right = left ∨ separated left right →
  ∃ s', matadd left right left s = Some s' ∧
        only_changed (footprint left) s s' ∧
        ∀ i j, i < m → j < n →
          get left (index i) (index j) s'
          = Some (add (entry left s i j) (entry right s i j)).
Proof.
  intros Hl Hr Hnd Hright. rewrite matadd_fill.
  apply (fill_spec left _ (λ p, add (entry left s p.1 p.2) (entry right s p.1 p.2)));
    [done..|].
  intros pre [i j] post s2 Hsplit Hch. simpl.
  pose proof (split_position _ _ _ Hsplit) as [Hi Hj]%elem_of_positions.
  assert (Hleft : ∀ mat : matrix m n, mat = left →
    get mat (index i) (index j) s2 = get mat (index i) (index j) s).
  { intros mat ->. apply (get_frame left _ s s2 (i, j) Hch).
    intros Hin. unfold footprint in Hnd.
    rewrite Hsplit, fmap_app in Hnd. apply NoDup_app in Hnd as (_ & Hdisj & _).
    apply (Hdisj _ Hin). left. }
  rewrite (Hleft left eq_refl).
  destruct Hright as [->|Hsep].
  - rewrite (Hleft left eq_refl), !defined_get by done. done.
  - rewrite (get_separated left right _ s s2 i j Hsep Hch); try done;
      [|intros c; by eapply prefix_footprint].
    by rewrite !defined_get.
Qed.

End Algorithms.

(** ** The project's tests *)

(** [TEST_CASE("matrix summation")]: the sum written into an
    uninitialised matrix equals the expected one. *)
Example test_matrix_summation (junk : nat → nat → Z) :
  ('(ma, s) ← basematrix_of_ptr 3 3 [40; 2; 98; 36; 15; 52; 52; 34; 77]%Z ∅;
   '(mb, s) ← basematrix_of_ptr 3 3 [37; 97; 77; 29; 3; 75; 92; 6; 14]%Z s;
   '(mc, s) ← basematrix_of_ptr 3 3 [77; 99; 175; 65; 18; 127; 144; 40; 91]%Z s;
   let '(msum, s) := basematrix_default 3 3 junk s in
   s ← matadd ma mb msum s;
   operator_eq msum mc s) = Some true.
Proof. reflexivity. Qed.

(** [TEST_CASE("matrix multiplication")]. *)
Example test_matrix_multiplication (junk : nat → nat → Z) :
  ('(ma, s) ← basematrix_of_ptr 4 3 [1; 2; 3; 4; 5; 6; 7; 8; 9; 10; 11; 12]%Z ∅;
   '(mb, s) ← basematrix_of_ptr 3 2 [13; 14; 15; 16; 17; 18]%Z s;
   '(mc, s) ← basematrix_of_ptr 4 2 [94; 100; 229; 244; 364; 388; 499; 532]%Z s;
   let '(mprod, s) := basematrix_default 4 2 junk s in
   s ← matmul ma mb mprod s;
   operator_eq mprod mc s) = Some true.
Proof. reflexivity. Qed.

(** [TEST_CASE("matrix determinant")], both sections. *)
Example test_matrix_determinant :
  (let '(ma, s) := basematrix_fill 1 1 2%Z ∅ in det (k:=0) ma s) = Some 2%Z ∧
  ('(mb, s) ← basematrix_of_ptr 2 2 [7; 13; 18; 6]%Z ∅; det (k:=1) mb s)
  = Some (7 * 6 - 13 * 18)%Z.
Proof. split; reflexivity. Qed.

(** ** The determinant of a 1×1 matrix, and the inverse *)

(** C9.  On a 1×1 matrix [det] is the overload that returns
    [mat->get(0, 0)], without building any view; on the dense matrix
    [[k]] that value is [k]. *)
Theorem det_1x1 {T} `{Scalar T} :
  (∀ (mat : matrix 1 1) (s : store T), det mat s = get mat 0%N 0%N s) ∧
  (∀ (k : T) (l : loc) (s : store T),
     det (basematrix l : matrix 1 1) (<[l := [[k]]]> s) = Some k).
Proof.
  split; [done|]. intros k l s. simpl. by rewrite lookup_insert_eq.
Qed.

(** C2.  What [inverse] does: on every source and destination it returns
    [false], never [true], and the store it leaves is the one it was
    given.  The header documents [true] as the result for a singular
    source, so the value returned is the one documented for an invertible
    source. *)
Theorem inverse_returns_false {T} `{Scalar T} {n} (src dest : matrix n n)
    (s : store T) :
  inverse src dest s = Some (false, s) ∧
  ∀ s', inverse src dest s ≠ Some (true, s').
Proof. by split. Qed.

(** ** Views *)

Section Views.
Context {T : Type} `{Scalar T}.

(** C3, amended.  A view over a well-formed [M × N] parent with offsets
    [(oi, oj)] reads and writes the parent at row
    [r = ((i + oi) mod 2^64) mod M] and column
    [c = ((j + oj) mod 2^64) mod N]: the sums are taken in [size_t], and
    are the plain sums whenever these do not wrap.  [set] stores [v]
    there and returns it; afterwards the parent reads [v] at [(r, c)] and
    reads as before at every coordinate that denotes another storage
    cell, which is every other coordinate when the parent is dense. *)
Theorem submatrix_get_set {m n M N} (parent : matrix M N)
    (oi oj i j : size_t) (v : T) (s : store T) :
  0 < M → 0 < N → wf parent s = true →
  let view : matrix m n := submatrix M N parent oi oj in
  let r := (size_add i oi mod N.of_nat M)%N in
  let c := (size_add j oj mod N.of_nat N)%N in
  ((i + oi < SIZE_MODULUS)%N → r = ((i + oi) mod N.of_nat M)%N) ∧
  ((j + oj < SIZE_MODULUS)%N → c = ((j + oj) mod N.of_nat N)%N) ∧
  get view i j s = get parent r c s ∧
  ∃ s', set view i j v s = Some (v, s') ∧
        get parent r c s' = Some v ∧
        (∀ a b, resolve parent a b ≠ resolve parent r c →
           get parent a b s' = get parent a b s) ∧
        (∀ l, parent = basematrix l → ∀ a b, (a, b) ≠ (r, c) →
           get parent a b s' = get parent a b s).
Proof.
  intros HM HN Hwf view r c.
  assert (Hdec : ∀ A (x y : A), (if decide (M = 0 ∨ N = 0) then x else y) = y).
  { intros. case_decide; [lia|done]. }
  split; [|split; [|split]].
  - intros Hi. unfold r, size_add. by rewrite (N.mod_small (i + oi)).
  - intros Hj. unfold c, size_add. by rewrite (N.mod_small (j + oj)).
  - simpl. apply Hdec.
  - destruct (wf_resolve parent s r c Hwf) as (t & Ht & Hload);
      [apply N.mod_lt; lia..|].
    destruct (store_cell_Some t v s Hload) as [s' Hs'].
    pose proof (store_cell_inv _ _ _ _ _ Hs') as (_ & _ & Hnew & Hframe).
    assert (Hothers : ∀ a b, resolve parent a b ≠ resolve parent r c →
              get parent a b s' = get parent a b s).
    { intros a b Hne. rewrite !get_resolve.
      destruct (resolve parent a b) as [t'|] eqn:Ht'; simpl; [|done].
      apply Hframe. congruence. }
    exists s'. split; [|split; [|split]].
    + simpl. rewrite Hdec. fold r c. by rewrite set_resolve, Ht.
    + by rewrite get_resolve, Ht.
    + done.
    + intros l -> a b Hne. apply Hothers. simpl.
      intros [= Ha%N2Nat.inj Hb%N2Nat.inj]. congruence.
Qed.

End Views.

(** The witness of C3 is the view of its counterexample. *)
Lemma submatrix_get_set_witness :
  let parent : matrix 3 1 := basematrix 0 in
  let view : matrix 2 1 := submatrix 3 1 parent (2 ^ 64 - 1)%N 0%N in
  let s : store Z := <[0 := [[10]; [20]; [30]]%Z]> ∅ in
  0 < 3 ∧ 0 < 1 ∧ wf parent s = true ∧
  get view 1%N 0%N s = get parent 0%N 0%N s ∧
  ∃ s', set view 1%N 0%N 7%Z s = Some (7%Z, s') ∧
        get parent 0%N 0%N s' = Some 7%Z.
Proof.
  intros parent view s.
  split; [lia|]. split; [lia|]. split; [reflexivity|].
  destruct (submatrix_get_set (m:=2) (n:=1) parent (2 ^ 64 - 1)%N 0%N 1%N 0%N 7%Z s)
    as (_ & _ & Hget & s' & Hset & Hnew & _); [lia|lia|reflexivity|].
  split; [exact Hget|]. exists s'. split; [exact Hset|exact Hnew].
Defined.

(** C3 as stated fails in two ways.  With offset [2^64 - 1] on a parent of
    three rows, row [1] of the view is row [0] of the parent, not row
    [(1 + (2^64 - 1)) mod 3 = 1].  And a [set] through a view whose parent
    is itself a view wrapping a smaller matrix changes the parent at
    coordinates other than the one written. *)
Lemma submatrix_get_set_counterexample :
  (let parent : matrix 3 1 := basematrix 0 in
   let view : matrix 2 1 := submatrix 3 1 parent (2 ^ 64 - 1)%N 0%N in
   let s : store Z := <[0 := [[10]; [20]; [30]]%Z]> ∅ in
   get view 1%N 0%N s = Some 10%Z ∧
   get parent ((1 + (2 ^ 64 - 1)) mod 3)%N ((0 + 0) mod 1)%N s = Some 20%Z) ∧
  (let dense : matrix 1 1 := basematrix 0 in
   let parent : matrix 2 2 := submatrix 1 1 dense 0%N 0%N in
   let view : matrix 2 2 := submatrix 2 2 parent 0%N 0%N in
   let s : store Z := <[0 := [[5%Z]]]> ∅ in
   ∃ s', set view 0%N 0%N 9%Z s = Some (9%Z, s') ∧
         ((1, 1) ≠ ((0 + 0) mod 2, (0 + 0) mod 2))%N ∧
         get parent 1%N 1%N s = Some 5%Z ∧
         get parent 1%N 1%N s' = Some 9%Z).
Proof.
  split.
  - split; reflexivity.
  - eexists. split; [reflexivity|]. split; [discriminate|]. split; reflexivity.
Qed.

(** ** Comparisons *)

Section Comparisons.
Context {T : Type} `{Scalar T}.

Lemma compare_spec {m n} (A B : matrix m n) (test : T → T → bool) (s : store T) :
  defined A s → defined B s →
  ∃ b, all_int m (λ i, all_int n (λ j,
         x ← get A (index i) (index j) s;
         y ← get B (index i) (index j) s;
         Some (test x y))) = Some b ∧
       (b = true ↔ ∀ i j, i < m → j < n →
          test (entry A s i j) (entry B s i j) = true).
Proof.
  intros HA HB.
  assert (Hinner : ∀ i, i < m →
    ∃ b, all_int n (λ j, x ← get A (index i) (index j) s;
                         y ← get B (index i) (index j) s;
                         Some (test x y)) = Some b ∧
         (b = true ↔ ∀ j, j < n → test (entry A s i j) (entry B s i j) = true)).
  { intros i Hi.
    destruct (all_int_spec n (λ j, x ← get A (index i) (index j) s;
                                   y ← get B (index i) (index j) s;
                                   Some (test x y))) as (b & Hb & Hiff).
    - intros j Hj. rewrite !defined_get by done. by eexists.
    - exists b. split; [done|]. rewrite Hiff.
      split; intros Hall j Hj; specialize (Hall j Hj);
        rewrite !defined_get in * by done; simpl in *; congruence. }
  destruct (all_int_spec m (λ i, all_int n (λ j,
              x ← get A (index i) (index j) s;
              y ← get B (index i) (index j) s;
              Some (test x y)))) as (b & Hb & Hiff).
  - intros i Hi. destruct (Hinner i Hi) as (b & -> & _). by eexists.
  - exists b. split; [done|]. rewrite Hiff. split.
    + intros Hall i j Hi Hj. destruct (Hinner i Hi) as (b' & Hb' & Hiff').
      apply Hiff'; [|done]. specialize (Hall i Hi). congruence.
    + intros Hall i Hi. destruct (Hinner i Hi) as (b' & -> & Hiff').
      f_equal. apply Hiff'. auto.
Qed.


End Comparisons.

(** On integers [!=] is false of equal entries only. *)
Lemma operator_eq_Z {m n} (A B : matrix m n) (s : store Z) :
  defined A s → defined B s →
  ∃ b, operator_eq A B s = Some b ∧ (b = true ↔ agree A s B s).
Proof.
  intros HA HB.
  destruct (compare_spec A B (λ x y, negb (neq x y)) s HA HB) as (b & Hb & Hiff).
  exists b. split; [done|]. rewrite Hiff. unfold agree.
  split; intros Hall i j Hi Hj; specialize (Hall i j Hi Hj);
    rewrite ?defined_get in * by done; simpl in *.
  - apply negb_true_iff, negb_false_iff, Z.eqb_eq in Hall. by rewrite Hall.
  - injection Hall as ->. by rewrite Z.eqb_refl.
Qed.


(** ** [matmul] and [matadd] under aliasing *)

Section Products.
Context {T : Type} `{Scalar T}.



End Products.





(** ** Independence of the representation *)

Section Representation.
Context {T : Type} `{Scalar T}.

Lemma all_of_ext (l : list nat) (test test' : nat → option bool) :
  (∀ i, i ∈ l → test i = test' i) → all_of l test = all_of l test'.
Proof.
  induction l as [|i l IH]; intros Heq; simpl; [done|].
  rewrite <-(Heq i) by left. destruct (test i) as [[]|]; simpl; try done.
  apply IH. intros; apply Heq; by right.
Qed.

Lemma all_int_ext n (test test' : nat → option bool) :
  (∀ i, i < n → test i = test' i) → all_int n test = all_int n test'.
Proof.
  intros Heq. apply all_of_ext. intros i Hi%elem_of_seq. apply Heq. lia.
Qed.

Lemma compare_ext {m n} (A A' B B' : matrix m n) (test : T → T → bool)
    (s s' : store T) :
  agree A s A' s' → agree B s B' s' →
  all_int m (λ i, all_int n (λ j,
    x ← get A (index i) (index j) s;
    y ← get B (index i) (index j) s; Some (test x y)))
  = all_int m (λ i, all_int n (λ j,
    x ← get A' (index i) (index j) s';
    y ← get B' (index i) (index j) s'; Some (test x y))).
Proof.
  intros HA HB. apply all_int_ext; intros i Hi. apply all_int_ext; intros j Hj.
  by rewrite HA, HB.
Qed.

(** The views [det] builds over two matrices with the same entries have
    the same entries. *)
Lemma agree_submatrix {m n M N} (A A' : matrix M N) (oi oj : size_t)
    (s s' : store T) :
  agree A s A' s' →
  agree (submatrix M N A oi oj : matrix m n) s (submatrix M N A' oi oj) s'.
Proof.
  intros HA i j Hi Hj. simpl. case_decide; [done|].
  set (r := (size_add (index i) oi mod N.of_nat M)%N).
  set (c := (size_add (index j) oj mod N.of_nat N)%N).
  assert (r < N.of_nat M)%N by (apply N.mod_lt; lia).
  assert (c < N.of_nat N)%N by (apply N.mod_lt; lia).
  specialize (HA (N.to_nat r) (N.to_nat c)).
  unfold index in HA. rewrite !N2Nat.id in HA. apply HA; lia.
Qed.

Lemma det_ext {k} (A A' : matrix (S k) (S k)) (s s' : store T) :
  agree A s A' s' → det A s = det A' s'.
Proof.
  revert A A'. induction k as [|k IH]; intros A A' HA.
  - apply (HA 0 0); lia.
  - simpl. f_equal. apply for_int_ext. intros j st Hj.
    rewrite (IH _ (submatrix (S (S k)) (S (S k)) A' 1%N (index (j + 1))))
      by by apply agree_submatrix.
    assert (H0 : get A 0%N (index j) s = get A' 0%N (index j) s')
      by (apply (HA 0 j); lia).
    by rewrite H0.
Qed.

Lemma matmul_ext {m n o} (left left' : matrix m n) (right right' : matrix n o)
    (dest : matrix m o) (s : store T) :
  agree left s left' s → agree right s right' s →
  separated dest left → separated dest left' →
  separated dest right → separated dest right' →
  matmul left right dest s = matmul left' right' dest s.
Proof.
  intros Hl Hr Hsl Hsl' Hsr Hsr'. rewrite !matmul_fill.
  apply fill_ext. intros [i j] s1 [Hi Hj]%elem_of_positions Hch. simpl.
  apply for_int_ext. intros k a Hk.
  rewrite (get_separated dest left _ s s1 i k Hsl Hch),
    (get_separated dest left' _ s s1 i k Hsl' Hch),
    (get_separated dest right _ s s1 k j Hsr Hch),
    (get_separated dest right' _ s s1 k j Hsr' Hch) by done.
  by rewrite Hl, Hr.
Qed.

Lemma matadd_ext {m n} (left left' right right' dest : matrix m n) (s : store T) :
  agree left s left' s → agree right s right' s →
  separated dest left → separated dest left' →
  separated dest right → separated dest right' →
  matadd left right dest s = matadd left' right' dest s.
Proof.
  intros Hl Hr Hsl Hsl' Hsr Hsr'. rewrite !matadd_fill.
  apply fill_ext. intros [i j] s1 [Hi Hj]%elem_of_positions Hch. simpl.
  rewrite (get_separated dest left _ s s1 i j Hsl Hch),
    (get_separated dest left' _ s s1 i j Hsl' Hch),
    (get_separated dest right _ s s1 i j Hsr Hch),
    (get_separated dest right' _ s s1 i j Hsr' Hch) by done.
  by rewrite Hl, Hr.
Qed.


End Representation.

(** Agreement of two concrete 2×2 matrices is checked entry by entry. *)
Lemma agree_2x2 {T} `{Scalar T} (A A' : matrix 2 2) (s s' : store T) :
  get A 0%N 0%N s = get A' 0%N 0%N s' → get A 0%N 1%N s = get A' 0%N 1%N s' →
  get A 1%N 0%N s = get A' 1%N 0%N s' → get A 1%N 1%N s = get A' 1%N 1%N s' →
  agree A s A' s'.
Proof.
  intros H00 H01 H10 H11 i j Hi Hj.
  destruct i as [|[|i]], j as [|[|j]]; (done || lia).
Qed.



(** ** A dense matrix made from a view *)

Section Construction.
Context {T : Type} `{Scalar T}.

Lemma mapM_fmap_Some {A B} (f : A → option B) (g : A → B) (l : list A) :
  (∀ x, x ∈ l → f x = Some (g x)) → mapM f l = Some (g <$> l).
Proof.
  intros Hf. apply mapM_Some, Forall2_fmap_r, Forall_Forall2_diag, Forall_forall.
  done.
Qed.

(** The constructor returns a new object whose entries are those of the
    matrix it copies, and leaves every other object alone. *)
Lemma basematrix_of_submatrix_spec {m n} (other : matrix m n) (s : store T) :
  defined other s →
  ∃ l s', basematrix_of_submatrix other s = Some (basematrix l, s') ∧
          s !! l = None ∧
          (∀ l0, l0 ≠ l → s' !! l0 = s !! l0) ∧
          ∀ i j, i < m → j < n →
            get (basematrix l : matrix m n) (index i) (index j) s'
            = get other (index i) (index j) s.
Proof.
  intros Hdef.
  set (rows := (λ i, (λ j, entry other s i j) <$> seq 0 n) <$> seq 0 m).
  assert (Hrows : mapM (λ i, mapM (λ j, get other (index i) (index j) s) (seq 0 n))
                       (seq 0 m) = Some rows).
  { apply mapM_fmap_Some. intros i Hi%elem_of_seq.
    apply mapM_fmap_Some. intros j Hj%elem_of_seq.
    apply defined_get; [done|lia..]. }
  exists (fresh (dom s)), (<[fresh (dom s) := rows]> s).
  split; [|split; [|split]].
  - unfold basematrix_of_submatrix. by rewrite Hrows.
  - apply not_elem_of_dom, is_fresh.
  - intros l0 Hl0. by rewrite lookup_insert_ne.
  - intros i j Hi Hj. simpl. rewrite lookup_insert_eq. simpl.
    unfold index. rewrite !Nat2N.id. unfold rows.
    rewrite list_lookup_fmap, lookup_seq_lt by done. simpl.
    rewrite list_lookup_fmap, lookup_seq_lt by done. simpl.
    symmetry. by apply defined_get.
Qed.

(** A mirroring view of the parent's own extents shows the parent. *)
Lemma submatrix_mirror_get {m n} (P : matrix m n) (s : store T) i j :
  wf P s = true → i < m → j < n →
  get (submatrix_mirror P : matrix m n) (index i) (index j) s
  = get P (index i) (index j) s.
Proof.
  intros [Hm Hn]%wf_fits Hi Hj. simpl. case_decide; [lia|].
  unfold size_add, index in *. rewrite !N.add_0_r.
  rewrite (N.mod_small (N.of_nat i) SIZE_MODULUS) by lia.
  rewrite (N.mod_small (N.of_nat j) SIZE_MODULUS) by lia.
  by rewrite !N.mod_small by lia.
Qed.


End Construction.


(** ** The determinant beyond 1×1 *)

(** On 2×2 dense matrices [det] is the determinant, as the project's test
    expects of [[7, 13], [18, 6]]. *)
Lemma det_2x2 (a b c d : Z) :
  det (basematrix 0 : matrix 2 2) (<[0 := [[a; b]; [c; d]]]> ∅)
  = Some (determinant 2 [[a; b]; [c; d]]).
Proof. cbv -[Z.add Z.sub Z.mul]. f_equal. ring. Qed.

(** On 3×3 dense matrices the three products enter with the signs
    [+], [+], [+] of the minors, where the expansion has [+], [-], [+]:
    the view for column [1] lists the remaining columns as [2, 0], so
    its determinant is the minor negated, and [det] subtracts it. *)
Lemma det_3x3 (a b c d e f g h i : Z) :
  det (basematrix 0 : matrix 3 3) (<[0 := [[a; b; c]; [d; e; f]; [g; h; i]]]> ∅)
  = Some (a * (e * i - f * h) + b * (d * i - f * g) + c * (d * h - e * g))%Z
  ∧ determinant 3 [[a; b; c]; [d; e; f]; [g; h; i]]
    = (a * (e * i - f * h) - b * (d * i - f * g) + c * (d * h - e * g))%Z.
Proof. split; cbv -[Z.add Z.sub Z.mul]; [f_equal|]; ring. Qed.

(** C1, at the failing input.  The matrix that exchanges the first two
    coordinates has determinant [-1]; [det] returns [1]. *)
Theorem det_3x3_sign :
  let a := [[0; 1; 0]; [1; 0; 0]; [0; 0; 1]]%Z in
  det (basematrix 0 : matrix 3 3) (<[0 := a]> ∅) = Some 1%Z ∧
  determinant 3 a = (-1)%Z.
Proof. split; reflexivity. Qed.

(** ** Dense matrices *)

Section Dense.
Context {T : Type} `{Scalar T}.

Lemma cell_at_basematrix {m n} (l : loc) (p : nat * nat) :
  cell_at (basematrix l : matrix m n) p = Some (l, p.1, p.2).
Proof. unfold cell_at, index. simpl. by rewrite !Nat2N.id. Qed.

Lemma NoDup_positions m n : NoDup (positions m n).
Proof.
  unfold positions. apply NoDup_bind.
  - intros i1 i2 [i j] _ _ (? & [= -> _] & _)%list_elem_of_fmap
      (? & [= -> _] & _)%list_elem_of_fmap. done.
  - intros i _. apply NoDup_fmap_2; [|apply NoDup_seq]. by intros ?? [=].
  - apply NoDup_seq.
Qed.

(** The cells of a dense matrix are pairwise distinct. *)
Lemma NoDup_footprint_basematrix {m n} (l : loc) :
  NoDup (footprint (basematrix l : matrix m n)).
Proof.
  unfold footprint.
  rewrite (list_fmap_ext _ (λ p, Some (l, p.1, p.2)) (positions m n))
    by (intros; apply cell_at_basematrix).
  apply NoDup_fmap_2; [|apply NoDup_positions].
  intros [??] [??] [=]. by subst.
Qed.

Lemma elem_of_footprint_basematrix {m n} (l : loc) c :
  Some c ∈ footprint (basematrix l : matrix m n) → c.1.1 = l.
Proof.
  intros (p & Hp & _)%list_elem_of_fmap.
  rewrite cell_at_basematrix in Hp. by injection Hp as ->.
Qed.

(** Two dense objects share no cell. *)
Lemma separated_basematrix {m n m' n'} (l l' : loc) :
  l ≠ l' →
  separated (basematrix l : matrix m n) (basematrix l' : matrix m' n').
Proof.
  intros Hne. apply Forall_forall. intros c (p & -> & _)%list_elem_of_fmap.
  rewrite cell_at_basematrix. intros Hin%elem_of_footprint_basematrix.
  simpl in Hin. congruence.
Qed.

(** Writing a dense object leaves the entries of every other one. *)
Lemma entry_basematrix_frame {m n m' n'} (l ld : loc) (s s' : store T) i j :
  only_changed (footprint (basematrix ld : matrix m' n')) s s' → l ≠ ld →
  entry (basematrix l : matrix m n) s' i j
  = entry (basematrix l : matrix m n) s i j.
Proof.
  intros Hch Hne. unfold entry. f_equal.
  apply (get_frame (basematrix l : matrix m n) _ s s' (i, j) Hch).
  rewrite cell_at_basematrix. intros Hin%elem_of_footprint_basematrix.
  simpl in Hin. congruence.
Qed.

(** [matmul] of dense matrices into a third dense object. *)
Lemma matmul_dense {m n o} (la lb ld : loc) (s : store T) :
  let left : matrix m n := basematrix la in
  let right : matrix n o := basematrix lb in
  let dest : matrix m o := basematrix ld in
  defined left s → defined right s → defined dest s → ld ≠ la → ld ≠ lb →
  ∃ s', matmul left right dest s = Some s' ∧
        only_changed (footprint dest) s s' ∧
        ∀ i j, i < m → j < o →
          entry dest s' i j
          = sum_from_zero n (λ k, mul (entry left s i k) (entry right s k j)).
Proof.
  intros left right dest Hl Hr Hd Hla Hlb.
  destruct (matmul_correct left right dest s) as (s' & Hrun & Hch & Hget);
    [done|done|done|apply NoDup_footprint_basematrix
    |by apply separated_basematrix|by apply separated_basematrix|].
  exists s'. split; [done|]. split; [done|].
  intros i j Hi Hj. unfold entry at 1. by rewrite Hget.
Qed.

End Dense.

(** ** Sums of integers *)

Lemma sum_Z_S n (f : nat → Z) :
  sum_from_zero (S n) f = (sum_from_zero n f + f n)%Z.
Proof. unfold sum_from_zero. by rewrite seq_S, fold_left_app. Qed.

Lemma sum_Z_ext n (f g : nat → Z) :
  (∀ k, k < n → f k = g k) → sum_from_zero n f = sum_from_zero n g.
Proof.
  induction n as [|n IH]; intros Hfg; [done|].
  rewrite !sum_Z_S, IH, Hfg by auto with lia. done.
Qed.

Lemma sum_Z_add n (f g : nat → Z) :
  sum_from_zero n (λ k, f k + g k)%Z
  = (sum_from_zero n f + sum_from_zero n g)%Z.
Proof.
  induction n as [|n IH]; [done|]. rewrite !sum_Z_S, IH. lia.
Qed.

Lemma sum_Z_mul_r n (f : nat → Z) (c : Z) :
  (sum_from_zero n f * c)%Z = sum_from_zero n (λ k, f k * c)%Z.
Proof.
  induction n as [|n IH]; [unfold sum_from_zero; simpl; lia|].
  rewrite !sum_Z_S, <-IH. lia.
Qed.

Lemma sum_Z_mul_l n (f : nat → Z) (c : Z) :
  (c * sum_from_zero n f)%Z = sum_from_zero n (λ k, c * f k)%Z.
Proof.
  induction n as [|n IH]; [unfold sum_from_zero; simpl; lia|].
  rewrite !sum_Z_S, <-IH. lia.
Qed.

Lemma sum_Z_zero n : sum_from_zero n (λ _, 0%Z) = 0%Z.
Proof. induction n as [|n IH]; [done|]. rewrite sum_Z_S, IH. done. Qed.

Lemma sum_Z_swap n o (g : nat → nat → Z) :
  sum_from_zero n (λ k, sum_from_zero o (λ l, g k l))
  = sum_from_zero o (λ l, sum_from_zero n (λ k, g k l)).
Proof.
  induction n as [|n IH].
  - symmetry. apply sum_Z_zero.
  - rewrite sum_Z_S, IH, <-sum_Z_add. apply sum_Z_ext. intros l _.
    by rewrite sum_Z_S.
Qed.

(** The two bracketings of a triple product have the same entries. *)
Lemma sum_Z_assoc n o (a : nat → Z) (b : nat → nat → Z) (c : nat → Z) :
  sum_from_zero o (λ k, sum_from_zero n (λ l, a l * b l k) * c k)%Z
  = sum_from_zero n (λ l, a l * sum_from_zero o (λ k, b l k * c k))%Z.
Proof.
  rewrite (sum_Z_ext o _ (λ k, sum_from_zero n (λ l, a l * b l k * c k)%Z))
    by (intros; apply sum_Z_mul_r).
  rewrite sum_Z_swap. apply sum_Z_ext. intros l _.
  rewrite sum_Z_mul_l. apply sum_Z_ext. intros k _. lia.
Qed.

(** ** Associativity of the product *)



(** * Further properties of the header *)

(** ** Accessors *)

Section Accessors.
Context {T : Type} `{Scalar T}.

Lemma store_cell_eq c v (s : store T) x s' :
  store_cell c v s = Some (x, s') →
  ∃ rows row, s !! c.1.1 = Some rows ∧ rows !! c.1.2 = Some row ∧
              is_Some (row !! c.2) ∧
              s' = <[c.1.1 := <[c.1.2 := <[c.2 := v]> row]> rows]> s.
Proof.
  unfold store_cell.
  destruct (s !! c.1.1) as [rows|] eqn:Hrows; simpl; [|done].
  destruct (rows !! c.1.2) as [row|] eqn:Hrow; simpl; [|done].
  destruct (row !! c.2) as [old|] eqn:Hold; simpl; [|done].
  intros [= <- <-]. exists rows, row. repeat split; eauto.
Qed.

Lemma store_cell_None c v (s : store T) :
  load c s = None → store_cell c v s = None.
Proof.
  unfold store_cell, load.
  destruct (s !! c.1.1) as [rows|]; simpl; [|done].
  destruct (rows !! c.1.2) as [row|]; simpl; [|done].
  by destruct (row !! c.2).
Qed.

Lemma forallb_insert {A} (f : A → bool) (l : list A) i x y :
  l !! i = Some x → f y = f x → forallb f (<[i:=y]> l) = forallb f l.
Proof.
  revert i. induction l as [|a l IH]; intros [|i] Hi Hf; simpl in *; try done.
  - injection Hi as ->. by rewrite Hf.
  - by rewrite (IH i).
Qed.

(** Storing into a cell keeps the shape of every array. *)
Lemma store_cell_wf c v (s : store T) x s' {m n} (mat : matrix m n) :
  store_cell c v s = Some (x, s') → wf mat s' = wf mat s.
Proof.
  intros (rows & row & Hrows & Hrow & Hold & ->)%store_cell_eq.
  induction mat as [m n l|m n M N p IH oi oj]; simpl.
  - f_equal. destruct (decide (l = c.1.1)) as [->|Hne].
    + rewrite lookup_insert_eq, Hrows. rewrite length_insert. f_equal.
      apply (forallb_insert _ _ _ row); [done|]. by rewrite length_insert.
    + by rewrite lookup_insert_ne.
  - by rewrite IH.
Qed.

(** X1.  Write, then read: on a well-formed matrix of any representation
    [set] at a valid index returns the value, after which [get] at that
    index returns it. *)
Theorem set_then_get {m n} (mat : matrix m n) (i j : size_t) (v : T)
    (s : store T) :
  wf mat s = true → (i < N.of_nat m)%N → (j < N.of_nat n)%N →
  ∃ s', set mat i j v s = Some (v, s') ∧ get mat i j s' = Some v.
Proof.
  intros Hwf Hi Hj.
  destruct (wf_resolve mat s i j Hwf Hi Hj) as (c & Hc & Hload).
  destruct (store_cell_Some c v s Hload) as [s' Hs'].
  exists s'. rewrite set_resolve, get_resolve, Hc. simpl. split; [done|].
  by apply store_cell_inv in Hs' as (_ & _ & ? & _).
Qed.

(** X2.  A [set] that returns leaves every matrix, of any extents and
    representation, exactly as well formed as it was: no array changes its
    shape, no object appears or disappears. *)
Theorem set_keeps_wf {m n} (mat : matrix m n) (i j : size_t) (v x : T)
    (s s' : store T) {m' n'} (other : matrix m' n') :
  set mat i j v s = Some (x, s') → wf other s' = wf other s.
Proof.
  rewrite set_resolve. destruct (resolve mat i j) as [c|]; simpl; [|done].
  apply store_cell_wf.
Qed.

(** X3.  Two views over one parent alias: when coordinate [(i, j)] of the
    first and [(i', j')] of the second fall on the same coordinate of the
    parent, a value written through the first is read through the
    second. *)
Theorem set_seen_through_other_view {m n m' n' M N} (parent : matrix M N)
    (a b c d i j i' j' : size_t) (v : T) (s : store T) :
  let view1 : matrix m n := submatrix M N parent a b in
  let view2 : matrix m' n' := submatrix M N parent c d in
  wf parent s = true → 0 < M → 0 < N →
  (size_add i a mod N.of_nat M = size_add i' c mod N.of_nat M)%N →
  (size_add j b mod N.of_nat N = size_add j' d mod N.of_nat N)%N →
  ∃ s', set view1 i j v s = Some (v, s') ∧ get view2 i' j' s' = Some v.
Proof.
  intros view1 view2 Hwf HM HN Hrow Hcol. simpl.
  case_decide; [lia|]. rewrite <-Hrow, <-Hcol.
  destruct (wf_resolve parent s (size_add i a mod N.of_nat M)%N
              (size_add j b mod N.of_nat N)%N Hwf) as (t & Ht & Hload);
    [apply N.mod_lt; lia..|].
  destruct (store_cell_Some t v s Hload) as [s' Hs'].
  exists s'. rewrite set_resolve, get_resolve, Ht. simpl. split; [done|].
  by apply store_cell_inv in Hs' as (_ & _ & ? & _).
Qed.

(** X4.  The last write wins: a second [set] at the same index has the
    effect it would have had without the first. *)
Theorem set_twice {m n} (mat : matrix m n) (i j : size_t) (v1 v2 x : T)
    (s s1 : store T) :
  set mat i j v1 s = Some (x, s1) → set mat i j v2 s1 = set mat i j v2 s.
Proof.
  rewrite !set_resolve. destruct (resolve mat i j) as [c|]; simpl; [|done].
  intros (rows & row & Hrows & Hrow & [old Hold] & ->)%store_cell_eq.
  unfold store_cell. rewrite lookup_insert_eq, Hrows. simpl.
  rewrite list_lookup_insert_eq by (by eapply lookup_lt_Some).
  rewrite Hrow. simpl.
  rewrite list_lookup_insert_eq by (by eapply lookup_lt_Some).
  rewrite Hold. simpl.
  by rewrite insert_insert_eq, !list_insert_insert_eq.
Qed.

Lemma store_cell_commute c1 c2 v1 v2 (s : store T) :
  c1 ≠ c2 →
  (r ← store_cell c1 v1 s; snd <$> store_cell c2 v2 r.2)
  = (r ← store_cell c2 v2 s; snd <$> store_cell c1 v1 r.2).
Proof.
  intros Hne.
  destruct (store_cell c1 v1 s) as [[x1 s1]|] eqn:H1; simpl.
  - pose proof (store_cell_inv _ _ _ _ _ H1) as (_ & Hl1 & _ & Hf1).
    destruct (store_cell c2 v2 s) as [[x2 s2]|] eqn:H2; simpl.
    + pose proof (store_cell_inv _ _ _ _ _ H2) as (_ & Hl2 & _ & Hf2).
      apply store_cell_eq in H1 as (rows1 & row1 & Hrows1 & Hrow1 & [o1 Ho1] & ->).
      apply store_cell_eq in H2 as (rows2 & row2 & Hrows2 & Hrow2 & [o2 Ho2] & ->).
      destruct c1 as [[l1 i1] j1], c2 as [[l2 i2] j2]. simpl in *.
      unfold store_cell. simpl.
      destruct (decide (l1 = l2)) as [->|Hl].
      * rewrite !lookup_insert_eq. simpl.
        assert (rows2 = rows1) as -> by congruence.
        destruct (decide (i1 = i2)) as [->|Hi].
        -- assert (row2 = row1) as -> by congruence.
           assert (j1 ≠ j2) by congruence.
           rewrite !list_lookup_insert_eq by (by eapply lookup_lt_Some). simpl.
           rewrite !list_lookup_insert_ne by done. rewrite Ho1, Ho2. simpl.
           rewrite !insert_insert_eq, !list_insert_insert_eq.
           by rewrite list_insert_insert_ne.
        -- rewrite !list_lookup_insert_ne by done. rewrite Hrow1, Hrow2. simpl.
           rewrite Ho1, Ho2. simpl. rewrite !insert_insert_eq.
           by rewrite list_insert_insert_ne.
      * rewrite !lookup_insert_ne by done. rewrite Hrows1, Hrows2. simpl.
        rewrite Hrow1, Hrow2. simpl. rewrite Ho1, Ho2. simpl.
        by rewrite insert_insert_ne.
    + rewrite store_cell_None; [done|]. rewrite Hf1 by done.
      destruct (load c2 s) as [o|] eqn:Hl2; [|done].
      destruct (store_cell_Some c2 v2 s) as [? ?]; [by eexists|congruence].
  - destruct (store_cell c2 v2 s) as [[x2 s2]|] eqn:H2; simpl; [|done].
    pose proof (store_cell_inv _ _ _ _ _ H2) as (_ & _ & _ & Hf2).
    rewrite store_cell_None; [done|]. rewrite Hf2 by done.
    destruct (load c1 s) as [o|] eqn:Hl1; [|done].
    destruct (store_cell_Some c1 v1 s) as [? ?]; [by eexists|congruence].
Qed.

(** X5.  Writes that land on different storage cells commute: in either
    order they leave the same store, or are undefined together. *)
Theorem set_commute {m n m' n'} (mat1 : matrix m n) (mat2 : matrix m' n')
    (i1 j1 i2 j2 : size_t) (v1 v2 : T) (s : store T) :
  resolve mat1 i1 j1 ≠ resolve mat2 i2 j2 →
  (r ← set mat1 i1 j1 v1 s; snd <$> set mat2 i2 j2 v2 r.2)
  = (r ← set mat2 i2 j2 v2 s; snd <$> set mat1 i1 j1 v1 r.2).
Proof.
  intros Hne.
  assert (Hset : ∀ m n (mat : matrix m n) i j v (s0 : store T),
    set mat i j v s0 = resolve mat i j ≫= λ c, store_cell c v s0)
    by (intros; apply set_resolve).
  destruct (resolve mat1 i1 j1) as [c1|] eqn:Hc1,
           (resolve mat2 i2 j2) as [c2|] eqn:Hc2.
  - rewrite (Hset _ _ mat1 i1 j1 v1 s), (Hset _ _ mat2 i2 j2 v2 s), Hc1, Hc2.
    simpl. etrans; [|etrans; [apply (store_cell_commute c1 c2 v1 v2 s); congruence|]].
    + destruct (store_cell c1 v1 s); simpl; [|done]. by rewrite Hset, Hc2.
    + destruct (store_cell c2 v2 s); simpl; [|done]. by rewrite Hset, Hc1.
  - rewrite (Hset _ _ mat2 i2 j2 v2 s), Hc2. simpl.
    destruct (set mat1 i1 j1 v1 s); simpl; [|done]. by rewrite Hset, Hc2.
  - rewrite (Hset _ _ mat1 i1 j1 v1 s), Hc1. simpl.
    destruct (set mat2 i2 j2 v2 s); simpl; [|done]. by rewrite Hset, Hc1.
  - done.
Qed.

(** X6.  A dense matrix has no bounds check and no wrapping: [get] and
    [set] are defined exactly at the indices within its extents. *)
Theorem basematrix_bounds {m n} (l : loc) (i j : size_t) (v : T) (s : store T) :
  wf (basematrix l : matrix m n) s = true →
  (is_Some (get (basematrix l : matrix m n) i j s)
     ↔ (i < N.of_nat m)%N ∧ (j < N.of_nat n)%N) ∧
  (is_Some (set (basematrix l : matrix m n) i j v s)
     ↔ (i < N.of_nat m)%N ∧ (j < N.of_nat n)%N).
Proof.
  simpl. rewrite !andb_true_iff. intros [_ Hshape].
  destruct (s !! l) as [rows|]; [|done]. simpl.
  apply andb_true_iff in Hshape as [Hlen%bool_decide_eq_true_1 Hrows].
  rewrite forallb_forall in Hrows.
  assert (Hrow : ∀ row, rows !! N.to_nat i = Some row → length row = n).
  { intros row Hrow. specialize (Hrows row).
    rewrite bool_decide_eq_true in Hrows. apply Hrows.
    apply list_elem_of_In. by eapply list_elem_of_lookup_2. }
  destruct (rows !! N.to_nat i) as [row|] eqn:Hi; simpl.
  - apply lookup_lt_Some in Hi as Hlt. specialize (Hrow row eq_refl).
    destruct (row !! N.to_nat j) as [old|] eqn:Hj; simpl.
    + apply lookup_lt_Some in Hj. split; (split; [intros _; lia|by eexists]).
    + apply lookup_ge_None in Hj.
      split; (split; [by intros [??]|lia]).
  - apply lookup_ge_None in Hi. split; (split; [by intros [??]|lia]).
Qed.

(** X7.  A view never leaves its parent: whatever the offsets and the
    indices, also beyond the view's own extents, [get] and [set] on a view
    over a well-formed parent with non-zero extents are defined. *)
Theorem submatrix_total {m n M N} (parent : matrix M N)
    (oi oj i j : size_t) (v : T) (s : store T) :
  wf parent s = true → 0 < M → 0 < N →
  is_Some (get (submatrix M N parent oi oj : matrix m n) i j s) ∧
  is_Some (set (submatrix M N parent oi oj : matrix m n) i j v s).
Proof.
  intros Hwf HM HN. simpl. case_decide; [lia|].
  destruct (wf_resolve parent s (size_add i oi mod N.of_nat M)%N
              (size_add j oj mod N.of_nat N)%N Hwf) as (t & Ht & Hload);
    [apply N.mod_lt; lia..|].
  rewrite get_resolve, set_resolve, Ht. simpl. split; [done|].
  destruct (store_cell_Some t v s Hload) as [s' ->]. by eexists.
Qed.

End Accessors.

(** ** Offsets of views *)

Section Offsets.
Context {T : Type} `{Scalar T}.

(** X8.  Offsets count modulo the parent's extents: as long as the sums
    stay within [size_t], adding [M] to the row offset and [N] to the
    column offset gives a view with the same reads and writes.  (The view
    [det] takes for the last column, at column offset [n], is the one at
    column offset [0].) *)
Theorem submatrix_offset_periodic {m n M N} (parent : matrix M N)
    (oi oj i j : size_t) (v : T) (s : store T) :
  (i + oi + N.of_nat M < SIZE_MODULUS)%N →
  (j + oj + N.of_nat N < SIZE_MODULUS)%N →
  let shifted : matrix m n :=
    submatrix M N parent (oi + N.of_nat M)%N (oj + N.of_nat N)%N in
  let view : matrix m n := submatrix M N parent oi oj in
  get shifted i j s = get view i j s ∧
  set shifted i j v s = set view i j v s.
Proof.
  intros Hi Hj shifted view. simpl. case_decide; [done|].
  assert (Hr : (size_add i (oi + N.of_nat M) mod N.of_nat M
                = size_add i oi mod N.of_nat M)%N).
  { unfold size_add.
    rewrite (N.mod_small (i + (oi + N.of_nat M)) SIZE_MODULUS) by lia.
    rewrite (N.mod_small (i + oi) SIZE_MODULUS) by lia.
    replace (i + (oi + N.of_nat M))%N with (i + oi + 1 * N.of_nat M)%N by lia.
    apply N.Div0.mod_add. }
  assert (Hc : (size_add j (oj + N.of_nat N) mod N.of_nat N
                = size_add j oj mod N.of_nat N)%N).
  { unfold size_add.
    rewrite (N.mod_small (j + (oj + N.of_nat N)) SIZE_MODULUS) by lia.
    rewrite (N.mod_small (j + oj) SIZE_MODULUS) by lia.
    replace (j + (oj + N.of_nat N))%N with (j + oj + 1 * N.of_nat N)%N by lia.
    apply N.Div0.mod_add. }
  by rewrite Hr, Hc.
Qed.

(** X9.  Views compose: a view at offsets [(a, b)] of a view at offsets
    [(c, d)] that has the extents of its parent reads and writes like the
    single view at offsets [(a + c, b + d)], as long as the sums stay
    within [size_t]. *)
Theorem submatrix_of_submatrix {m n M N} (parent : matrix M N)
    (a b c d i j : size_t) (v : T) (s : store T) :
  (i + a + c < SIZE_MODULUS)%N → (j + b + d < SIZE_MODULUS)%N →
  let inner : matrix M N := submatrix M N parent c d in
  let outer : matrix m n := submatrix M N inner a b in
  let single : matrix m n := submatrix M N parent (a + c)%N (b + d)%N in
  get outer i j s = get single i j s ∧
  set outer i j v s = set single i j v s.
Proof.
  intros Hi Hj inner outer single. simpl. case_decide; [done|].
  assert (Hmod : ∀ x y z K : size_t, (x + y + z < SIZE_MODULUS)%N →
    (size_add (size_add x y mod K) z mod K = size_add x (y + z) mod K)%N).
  { intros x y z K Hlt. unfold size_add.
    rewrite (N.mod_small (x + y) SIZE_MODULUS) by lia.
    rewrite (N.mod_small (x + (y + z)) SIZE_MODULUS) by lia.
    pose proof (N.Div0.mod_le (x + y) K).
    rewrite (N.mod_small ((x + y) mod K + z) SIZE_MODULUS) by lia.
    by rewrite N.Div0.add_mod_idemp_l, N.add_assoc. }
  by rewrite !Hmod.
Qed.

End Offsets.

(** ** Constructors *)

Section Constructors.
Context {T : Type} `{Scalar T}.

(** The object a constructor makes is new, and every read that was defined
    before still returns what it returned. *)
Lemma alloc_spec {m n} (rows : list (list T)) (s : store T) :
  ∃ l, alloc rows s = (basematrix l : matrix m n, <[l := rows]> s) ∧
       s !! l = None ∧
       ∀ m' n' (q : matrix m' n') i j, is_Some (get q i j s) →
         get q i j (<[l := rows]> s) = get q i j s.
Proof.
  exists (fresh (dom s)). split; [done|].
  assert (Hfresh : s !! fresh (dom s) = None) by apply not_elem_of_dom, is_fresh.
  split; [done|].
  intros m' n' q i j. rewrite !get_resolve.
  destruct (resolve q i j) as [c|]; simpl; [|done].
  unfold load. destruct (decide (c.1.1 = fresh (dom s))) as [->|Hne].
  - rewrite Hfresh. simpl. by intros [??].
  - by rewrite lookup_insert_ne.
Qed.

Lemma wf_basematrix_insert {m n} (l : loc) (rows : list (list T)) (s : store T) :
  fits m = true → fits n = true → length rows = m →
  (∀ row, row ∈ rows → length row = n) →
  wf (basematrix l : matrix m n) (<[l := rows]> s) = true.
Proof.
  intros Hm Hn Hlen Hrows. simpl. rewrite Hm, Hn, lookup_insert_eq. simpl.
  apply andb_true_iff. split; [by apply bool_decide_eq_true|].
  apply forallb_forall. intros row Hrow%list_elem_of_In.
  apply bool_decide_eq_true. auto.
Qed.

(** X10.  [basematrix(T ex)] makes a new well-formed matrix whose every
    entry is the exemplar, and changes nothing that could be read
    before. *)
Theorem basematrix_fill_spec (m n : nat) (ex : T) (s : store T) :
  fits m = true → fits n = true →
  ∃ l s', basematrix_fill m n ex s = (basematrix l, s') ∧
          s !! l = None ∧
          wf (basematrix l : matrix m n) s' = true ∧
          (∀ i j, i < m → j < n →
             get (basematrix l : matrix m n) (index i) (index j) s' = Some ex) ∧
          (∀ m' n' (q : matrix m' n') i j, is_Some (get q i j s) →
             get q i j s' = get q i j s).
Proof.
  intros Hm Hn. unfold basematrix_fill.
  destruct (alloc_spec (m:=m) (n:=n) (replicate m (replicate n ex)) s)
    as (l & Halloc & Hfresh & Hframe).
  exists l, (<[l := replicate m (replicate n ex)]> s).
  split; [done|]. split; [done|]. split; [|split; [|done]].
  - apply wf_basematrix_insert; [done|done|apply length_replicate|].
    intros row [-> _]%elem_of_replicate. apply length_replicate.
  - intros i j Hi Hj. simpl. rewrite lookup_insert_eq. simpl.
    unfold index. rewrite !Nat2N.id.
    rewrite lookup_replicate_2 by done. simpl. by apply lookup_replicate_2.
Qed.

Lemma rows_of_lookup (m n : nat) (buf : list T) i :
  i < m → rows_of m n buf !! i = Some (take n (drop (i * n) buf)).
Proof.
  revert buf i. induction m as [|m IH]; intros buf [|i] Hi; simpl; try lia.
  - done.
  - rewrite IH by lia. by rewrite drop_drop.
Qed.

Lemma rows_of_length (m n : nat) (buf : list T) :
  length (rows_of m n buf) = m.
Proof. revert buf. induction m as [|m IH]; intros buf; simpl; auto. Qed.

Lemma rows_of_row_length (m n : nat) (buf : list T) row :
  m * n ≤ length buf → row ∈ rows_of m n buf → length row = n.
Proof.
  revert buf. induction m as [|m IH]; intros buf Hlen Hrow; simpl in *.
  - by apply elem_of_nil in Hrow.
  - apply elem_of_cons in Hrow as [->|Hrow].
    + rewrite length_take. lia.
    + apply (IH (drop n buf)); [|done]. rewrite length_drop. lia.
Qed.

(** X11.  [basematrix(T* ptr)] reads the buffer row by row: the new
    matrix is well formed and its entry [(i, j)] is element [i * n + j] of
    the buffer; elements from [m * n] on are ignored, and nothing that
    could be read before is changed. *)
Theorem basematrix_of_ptr_row_major (m n : nat) (ptr : list T) (s : store T) :
  fits m = true → fits n = true → m * n ≤ length ptr →
  ∃ l s', basematrix_of_ptr m n ptr s = Some (basematrix l, s') ∧
          s !! l = None ∧
          wf (basematrix l : matrix m n) s' = true ∧
          (∀ i j, i < m → j < n →
             get (basematrix l : matrix m n) (index i) (index j) s'
             = ptr !! (i * n + j)) ∧
          (∀ m' n' (q : matrix m' n') i j, is_Some (get q i j s) →
             get q i j s' = get q i j s).
Proof.
  intros Hm Hn Hlen. unfold basematrix_of_ptr. rewrite decide_True by done.
  destruct (alloc_spec (m:=m) (n:=n) (rows_of m n ptr) s)
    as (l & Halloc & Hfresh & Hframe).
  exists l, (<[l := rows_of m n ptr]> s).
  split; [by rewrite Halloc|]. split; [done|]. split; [|split; [|done]].
  - apply wf_basematrix_insert; [done|done|apply rows_of_length|].
    intros row Hrow. by eapply rows_of_row_length.
  - intros i j Hi Hj. simpl. rewrite lookup_insert_eq. simpl.
    unfold index. rewrite !Nat2N.id.
    rewrite rows_of_lookup by done. simpl.
    by rewrite lookup_take_lt, lookup_drop by done.
Qed.

Lemma wf_resolve_allocated {m n} (mat : matrix m n) (s : store T) i j c :
  wf mat s = true → resolve mat i j = Some c → is_Some (s !! c.1.1).
Proof.
  revert i j. induction mat as [m n l|m n M N p IH oi oj]; intros i j; simpl.
  - rewrite !andb_true_iff. intros [_ Hshape] [= <-]. simpl.
    by destruct (s !! l).
  - rewrite !andb_true_iff. intros [_ [_ Hp]]. case_decide; [done|].
    by apply IH.
Qed.


End Constructors.

(** ** [matmul] and [matadd] on arbitrary arguments *)

Section Writers.
Context {T : Type} `{Scalar T}.

Lemma for_each_inv {I A} (Inv : A → Prop) (l : list I)
    (body : I → A → option A) a :
  Inv a →
  (∀ i x, i ∈ l → Inv x → ∃ y, body i x = Some y ∧ Inv y) →
  ∃ y, for_each l body a = Some y ∧ Inv y.
Proof.
  revert a. induction l as [|i l IH]; intros a Ha Hstep; simpl; [by exists a|].
  destruct (Hstep i a) as (y & -> & Hy); [left|done|]. simpl.
  apply IH; [done|]. intros; apply Hstep; [by right|done].
Qed.

Lemma for_each_preserved {I A} (Inv : A → Prop) (l : list I)
    (body : I → A → option A) a b :
  (∀ i x y, body i x = Some y → Inv x → Inv y) →
  for_each l body a = Some b → Inv a → Inv b.
Proof.
  intros Hstep. revert a. induction l as [|i l IH]; intros a; simpl.
  - by intros [= ->].
  - destruct (body i a) as [y|] eqn:Hy; simpl; [|done]. eauto.
Qed.

Lemma fill_cell_wf {m n} (dest : matrix m n) val p (s s' : store T)
    {m' n'} (other : matrix m' n') :
  fill_cell dest val p s = Some s' → wf other s' = wf other s.
Proof.
  unfold fill_cell. destruct (val p s) as [a|]; simpl; [|done].
  rewrite set_resolve. destruct (resolve dest _ _) as [c|]; simpl; [|done].
  destruct (store_cell c a s) as [[x s'']|] eqn:Hst; simpl; [|done].
  intros [= <-]. by eapply store_cell_wf.
Qed.

Lemma fill_wf {m n} (dest : matrix m n) val (s s' : store T)
    {m' n'} (other : matrix m' n') :
  for_each (positions m n) (fill_cell dest val) s = Some s' →
  wf other s' = wf other s.
Proof.
  intros Hrun.
  apply (for_each_preserved (λ s1, wf other s1 = wf other s) _ _ _ _
           (λ p x y Hy Hx, eq_trans (fill_cell_wf dest val p x y other Hy) Hx)
           Hrun eq_refl).
Qed.

(** Filling is defined when the destination is well formed and the value
    of every cell is defined in every store of the same shape. *)
Lemma fill_total {m n} (dest : matrix m n) val (s : store T) :
  wf dest s = true →
  (∀ p s1, p ∈ positions m n →
     (∀ m' n' (q : matrix m' n'), wf q s1 = wf q s) → is_Some (val p s1)) →
  is_Some (for_each (positions m n) (fill_cell dest val) s).
Proof.
  intros Hd Hval.
  destruct (for_each_inv
    (λ s1, ∀ m' n' (q : matrix m' n'), wf q s1 = wf q s)
    (positions m n) (fill_cell dest val) s) as (s' & -> & _); [done| |done].
  intros [i j] s1 Hp Hs1. destruct (Hval (i, j) s1 Hp Hs1) as [a Ha].
  pose proof Hp as [Hi Hj]%elem_of_positions.
  destruct (wf_resolve dest s1 (index i) (index j)) as (c & Hc & Hload);
    [by rewrite Hs1|unfold index; lia..|].
  destruct (fill_cell_Some dest val (i, j) s1 a c Ha Hc Hload)
    as (s2 & Hfill & _).
  exists s2. split; [done|]. intros m' n' q.
  by rewrite (fill_cell_wf dest val (i, j) s1 s2 q Hfill).
Qed.


(** X14.  Whatever [matmul] and [matadd] write, they leave every matrix
    exactly as well formed as it was. *)
Theorem matmul_matadd_keep_wf :
  (∀ m n o (left : matrix m n) (right : matrix n o) (dest : matrix m o)
     (s s' : store T) m' n' (other : matrix m' n'),
     matmul left right dest s = Some s' → wf other s' = wf other s) ∧
  (∀ m n (left right dest : matrix m n) (s s' : store T)
     m' n' (other : matrix m' n'),
     matadd left right dest s = Some s' → wf other s' = wf other s).
Proof.
  split.
  - intros m n o left right dest s s' m' n' other. rewrite matmul_fill.
    apply fill_wf.
  - intros m n left right dest s s' m' n' other. rewrite matadd_fill.
    apply fill_wf.
Qed.


End Writers.

(** X16.  On integers [matadd] is commutative in its operands for every
    destination, aliased or not: [matadd(left, right, dest)] and
    [matadd(right, left, dest)] leave the same store. *)
Theorem matadd_comm {m n} (left right dest : matrix m n) (s : store Z) :
  matadd left right dest s = matadd right left dest s.
Proof.
  unfold matadd. apply for_int_ext; intros i s1 _.
  apply for_int_ext; intros j s2 _.
  destruct (get left (index i) (index j) s2) as [x|],
           (get right (index i) (index j) s2) as [y|]; simpl; try done.
  by rewrite Z.add_comm.
Qed.

Lemma sum_Z_delta_r n (f : nat → Z) j :
  j < n →
  sum_from_zero n (λ k, f k * (if decide (k = j) then 1 else 0))%Z = f j.
Proof.
  induction n as [|n IH]; intros Hj; [lia|]. rewrite sum_Z_S.
  destruct (decide (n = j)) as [->|Hne].
  - rewrite (sum_Z_ext j _ (λ _, 0%Z)), sum_Z_zero; [lia|].
    intros k Hk. rewrite decide_False by lia. lia.
  - rewrite IH by lia. lia.
Qed.

Lemma sum_Z_delta_l n (f : nat → Z) i :
  i < n →
  sum_from_zero n (λ k, (if decide (i = k) then 1 else 0) * f k)%Z = f i.
Proof.
  intros Hi. rewrite <-(sum_Z_delta_r n f i Hi). apply sum_Z_ext.
  intros k _. repeat case_decide; (lia || congruence).
Qed.


(** ** The determinant on every representation *)

Section DetViews.
Context {T : Type} `{Scalar T}.

Lemma wf_det_view {k} (A : matrix (S (S k)) (S (S k))) (oi oj : size_t)
    (s : store T) :
  wf A s = true →
  wf (submatrix (S (S k)) (S (S k)) A oi oj : matrix (S k) (S k)) s = true.
Proof.
  intros Hwf. pose proof (wf_fits A s Hwf) as [Hn _]. simpl.
  rewrite Hwf. unfold fits.
  rewrite !bool_decide_eq_true_2 by lia. done.
Qed.

Lemma get_row0 {m n} (mat : matrix m n) (s : store T) j :
  wf mat s = true → 0 < m → j < n →
  get mat 0%N (index j) s = Some (entry mat s 0 j).
Proof. intros Hwf%wf_defined Hm Hj. by apply (defined_get mat s 0 j). Qed.

Lemma get_00 {m n} (mat : matrix m n) (s : store T) :
  wf mat s = true → 0 < m → 0 < n →
  get mat 0%N 0%N s = Some (entry mat s 0 0).
Proof. intros Hwf%wf_defined Hm Hn. by apply (defined_get mat s 0 0). Qed.

Lemma det_is_Some {k} (A : matrix (S k) (S k)) (s : store T) :
  wf A s = true → is_Some (det A s).
Proof.
  revert A. induction k as [|k IH]; intros A Hwf.
  - simpl. rewrite get_00 by (done || lia). done.
  - simpl.
    destruct (for_each_inv (λ _ : T * bool, True) (seq 0 (S (S k)))
      (λ j st,
         sd ← det (submatrix (S (S k)) (S (S k)) A 1%N (index (j + 1))
                     : matrix (S k) (S k)) s;
         x ← get A 0%N (index j) s; Some (det_step sd x st)) (zero, true))
      as (st & Hst & _); [done| |].
    + intros j st Hj%elem_of_seq _.
      destruct (IH _ (wf_det_view A 1%N (index (j + 1)) s Hwf)) as [sd ->].
      simpl. rewrite get_row0 by (done || lia).
      simpl. eauto.
    + unfold for_int. rewrite Hst. done.
Qed.


(** X19.  The view [det] takes for column [c] of an [n × n] matrix
    ([submatrix(mat, 1, c + 1)]) holds rows [1, ..., n - 1] of the matrix
    and, in this order, its columns [c + 1, ..., n - 1, 0, ..., c - 1]:
    the minor that deletes row [0] and column [c], with its columns
    rotated. *)
Theorem det_view_columns {k} (A : matrix (S (S k)) (S (S k))) (c i j : nat)
    (s : store T) :
  (2 * N.of_nat (S (S k)) ≤ SIZE_MODULUS)%N →
  c < S (S k) → i < S k → j < S k →
  get (submatrix (S (S k)) (S (S k)) A 1%N (index (c + 1)) : matrix (S k) (S k))
      (index i) (index j) s
  = get A (index (i + 1)) (index ((c + 1 + j) mod S (S k))) s
  ∧ (c + 1 + j) mod S (S k) ≠ c.
Proof.
  intros Hfit Hc Hi Hj. split.
  - simpl. unfold size_add, index.
    rewrite (N.mod_small (N.of_nat i + 1) SIZE_MODULUS) by lia.
    rewrite (N.mod_small (N.of_nat j + N.of_nat (c + 1)) SIZE_MODULUS) by lia.
    f_equal.
    + rewrite N.mod_small by lia. lia.
    + replace (N.of_nat j + N.of_nat (c + 1))%N with (N.of_nat (c + 1 + j)) by lia.
      by rewrite <-Nat2N.inj_mod.
  - intros Heq.
    destruct (decide (c + 1 + j < S (S k))) as [Hlt|Hge].
    + rewrite Nat.mod_small in Heq by done. lia.
    + assert ((c + 1 + j) mod S (S k) = c + 1 + j - S (S k)); [|lia].
      symmetry. apply (Nat.mod_unique _ _ 1); lia.
Qed.

Lemma det_first_view_get {k} (A : matrix (S (S k)) (S (S k))) (i j : nat)
    (s : store T) :
  wf A s = true → i < S k → j < S k →
  get (submatrix (S (S k)) (S (S k)) A 1%N (index (0 + 1)) : matrix (S k) (S k))
      (index i) (index j) s
  = get A (index (i + 1)) (index (j + 1)) s.
Proof.
  intros Hwf Hi Hj. pose proof (wf_fits A s Hwf) as [Hn _].
  simpl. unfold size_add, index.
  rewrite (N.mod_small (N.of_nat i + 1) SIZE_MODULUS) by lia.
  rewrite (N.mod_small (N.of_nat j + N.of_nat 1) SIZE_MODULUS) by lia.
  f_equal; rewrite N.mod_small by lia; lia.
Qed.

End DetViews.



Lemma prod_upto_S n (f : nat → Z) :
  prod_upto (S n) f = (prod_upto n f * f n)%Z.
Proof. unfold prod_upto. by rewrite seq_S, fold_left_app. Qed.

Lemma prod_upto_ext n (f g : nat → Z) :
  (∀ i, i < n → f i = g i) → prod_upto n f = prod_upto n g.
Proof.
  induction n as [|n IH]; intros Hfg; [done|].
  rewrite !prod_upto_S, IH, Hfg by auto with lia. done.
Qed.

Lemma prod_upto_S_shift n (f : nat → Z) :
  prod_upto (S n) f = Z.mul (f 0) (prod_upto n (λ i, f (i + 1))).
Proof.
  induction n as [|n IH].
  - unfold prod_upto. simpl. lia.
  - rewrite prod_upto_S, IH, (prod_upto_S n). rewrite Nat.add_1_r. lia.
Qed.


(** ** Comparisons on arbitrary arguments *)

Section MoreComparisons.
Context {T : Type} `{Scalar T}.

Lemma all_of_true (l : list nat) (test : nat → option bool) :
  all_of l test = Some true ↔ ∀ i, i ∈ l → test i = Some true.
Proof.
  induction l as [|i l IH]; simpl.
  - split; [|done]. intros _ i Hi. by apply elem_of_nil in Hi.
  - split.
    + destruct (test i) as [[]|] eqn:Hi; simpl; try done.
      intros Hl k [->|Hk]%elem_of_cons; [done|]. by apply (proj1 IH Hl).
    + intros Hall. rewrite (Hall i) by left. simpl.
      apply IH. intros; apply Hall; by right.
Qed.

Lemma all_int_true n (test : nat → option bool) :
  all_int n test = Some true ↔ ∀ i, i < n → test i = Some true.
Proof.
  unfold all_int. rewrite all_of_true. split.
  - intros Hall i Hi. apply Hall, elem_of_seq. lia.
  - intros Hall i Hi%elem_of_seq. apply Hall. lia.
Qed.

(** The loops return [true] exactly when every pair of entries is read
    and passes the test. *)
Lemma compare_true {m n} (A B : matrix m n) (test : T → T → bool) (s : store T) :
  all_int m (λ i, all_int n (λ j,
    x ← get A (index i) (index j) s;
    y ← get B (index i) (index j) s; Some (test x y))) = Some true
  ↔ ∀ i j, i < m → j < n →
      ∃ x y, get A (index i) (index j) s = Some x ∧
             get B (index i) (index j) s = Some y ∧ test x y = true.
Proof.
  rewrite all_int_true. split.
  - intros Hall i j Hi Hj. specialize (Hall i Hi).
    rewrite all_int_true in Hall. specialize (Hall j Hj).
    destruct (get A (index i) (index j) s) as [x|]; simpl in *; [|done].
    destruct (get B (index i) (index j) s) as [y|]; simpl in *; [|done].
    exists x, y. by injection Hall as ->.
  - intros Hall i Hi. apply all_int_true. intros j Hj.
    destruct (Hall i j Hi Hj) as (x & y & -> & -> & Hxy). simpl. by rewrite Hxy.
Qed.

(** X23.  [cmppred] is monotone in its predicate: matrices that pass with
    a predicate pass with every weaker one. *)
Theorem cmppred_monotone {m n} (A B : matrix m n) (pred pred' : T → T → bool)
    (s : store T) :
  (∀ x y, pred x y = true → pred' x y = true) →
  cmppred A B pred s = Some true → cmppred A B pred' s = Some true.
Proof.
  intros Himp. unfold cmppred. rewrite !compare_true.
  intros Hall i j Hi Hj. destruct (Hall i j Hi Hj) as (x & y & ? & ? & ?).
  exists x, y. auto.
Qed.

End MoreComparisons.

(** X24.  Integer matrices that [operator==] finds equal pass [cmppred]
    with every reflexive predicate, such as a comparison up to a
    tolerance. *)
Theorem cmppred_of_operator_eq {m n} (A B : matrix m n) (pred : Z → Z → bool)
    (s : store Z) :
  (∀ x, pred x x = true) →
  operator_eq A B s = Some true → cmppred A B pred s = Some true.
Proof.
  intros Hrefl. unfold operator_eq, cmppred. rewrite !compare_true.
  intros Hall i j Hi Hj. destruct (Hall i j Hi Hj) as (x & y & ? & ? & Hxy).
  exists x, y. split; [done|]. split; [done|].
  apply negb_true_iff, negb_false_iff, Z.eqb_eq in Hxy as ->. apply Hrefl.
Qed.


(** ** Printing *)

Section PrintingProperties.
Context {T : Type} `{Scalar T}.

Lemma string_app_assoc (a b c : string) : (a +:+ b) +:+ c = a +:+ (b +:+ c).
Proof.
  induction a as [|x a IH]; [done|].
  change (String x ((a +:+ b) +:+ c) = String x (a +:+ (b +:+ c))).
  by rewrite IH.
Qed.

Lemma append_empty_r (a : string) : a +:+ "" = a.
Proof.
  induction a as [|x a IH]; [done|].
  change (String x (a +:+ "") = String x a). by rewrite IH.
Qed.

Lemma for_each_append {I} (l : list I) (piece : I → string → option string)
    (out pre : string) :
  (∀ i o, piece i o = String.append o <$> piece i "") →
  for_each l piece (out +:+ pre) = String.append out <$> for_each l piece pre.
Proof.
  intros Hpiece. revert out pre.
  induction l as [|i l IH]; intros out pre; simpl; [done|].
  rewrite (Hpiece i (out +:+ pre)), (Hpiece i pre).
  destruct (piece i "") as [r|]; simpl; [|done].
  rewrite string_app_assoc. apply IH.
Qed.

Lemma print_row_append (show : T → string) {m n} (mat : matrix m n) i
    (s : store T) (out : string) :
  print_row show mat i s out
  = String.append out <$> print_row show mat i s "".
Proof.
  unfold print_row, for_int.
  rewrite <-(append_empty_r out) at 1. apply for_each_append.
  intros j o. by destruct (get mat i (index j) s) as [x|].
Qed.

(** X26.  Printing only appends: what [operator<<] leaves in a stream
    that held [out] is [out] followed by what it writes to an empty
    stream. *)
Theorem operator_shl_appends (show : T → string) {m n} (mat : matrix m n)
    (s : store T) (out : string) :
  operator_shl show mat s out
  = String.append out <$> operator_shl show mat s "".
Proof.
  unfold operator_shl.
  rewrite (print_row_append show mat 0%N s (out +:+ "[ ")).
  rewrite (print_row_append show mat 0%N s ("" +:+ "[ ")).
  destruct (print_row show mat 0%N s "") as [r0|]; simpl; [|done].
  rewrite (string_app_assoc out "[ " r0).
  rewrite (for_each_append (seq 1 (m - 1)) _ out ("[ " +:+ r0)).
  - change (("" +:+ "[ ") +:+ r0) with ("[ " +:+ r0).
    destruct (for_each (seq 1 (m - 1)) _ ("[ " +:+ r0)) as [rest|]; simpl; [|done].
    by rewrite string_app_assoc.
  - intros i o. rewrite (print_row_append show mat (index i) s (o +:+ _)).
    rewrite (print_row_append show mat (index i) s ("" +:+ _)).
    destruct (print_row show mat (index i) s "") as [r|]; simpl; [|done].
    by rewrite !string_app_assoc.
Qed.

Lemma print_row_ext (show : T → string) {m n} (A A' : matrix m n) i
    (s s' : store T) (out : string) :
  i < m → agree A s A' s' →
  print_row show A (index i) s out = print_row show A' (index i) s' out.
Proof.
  intros Hi HA. unfold print_row. apply for_int_ext. intros j o Hj.
  by rewrite HA.
Qed.

Lemma print_row_is_Some (show : T → string) {m n} (A : matrix m n) i
    (s : store T) (out : string) :
  wf A s = true → i < m → is_Some (print_row show A (index i) s out).
Proof.
  intros Hwf Hi. unfold print_row, for_int.
  destruct (for_each_inv (λ _ : string, True) (seq 0 n)
    (λ j out, x ← get A (index i) (index j) s; Some (out +:+ TAB +:+ show x))
    out) as (r & -> & _); [done| |done].
  intros j o Hj%elem_of_seq _.
  rewrite (defined_get A s i j (wf_defined _ _ Hwf)) by lia. simpl. eauto.
Qed.

(** X27.  On a well-formed matrix with at least one row [operator<<] is
    defined, and what it writes depends on the entries only, not on the
    representation. *)
Theorem operator_shl_entries (show : T → string) {m n} (A A' : matrix m n)
    (s s' : store T) (out : string) :
  0 < m →
  (wf A s = true → is_Some (operator_shl show A s out)) ∧
  (agree A s A' s' → operator_shl show A s out = operator_shl show A' s' out).
Proof.
  intros Hm. split.
  - intros Hwf. unfold operator_shl.
    destruct (print_row_is_Some show A 0 s (out +:+ "[ ") Hwf Hm) as [r0 Hr0].
    change (index 0) with 0%N in Hr0. rewrite Hr0. simpl.
    destruct (for_each_inv (λ _ : string, True) (seq 1 (m - 1))
      (λ i out, print_row show A (index i) s (out +:+ NL +:+ "  ")) r0)
      as (r & -> & _); [done| |done].
    intros i o Hi%elem_of_seq _.
    destruct (print_row_is_Some show A i s (o +:+ NL +:+ "  ") Hwf) as [r ->];
      [lia|eauto].
  - intros HA. unfold operator_shl.
    rewrite (print_row_ext show A A' 0 s s' _ Hm HA : print_row show A 0%N s _ = _).
    change (index 0) with 0%N.
    destruct (print_row show A' 0%N s' (out +:+ "[ ")) as [r0|]; simpl; [|done].
    f_equal. apply for_each_ext. intros i o Hi%elem_of_seq.
    apply print_row_ext; [lia|done].
Qed.

(** X28.  Row [0] is printed even when the matrix has no rows.  A view
    with extents [0 × n] prints what the view with extents [1 × n] over
    the same parent prints, a row of its parent; on a well-formed dense
    [0 × n] matrix with [n > 0] printing reads outside the array. *)
Theorem operator_shl_no_rows (show : T → string) {n M N}
    (parent : matrix M N) (oi oj : size_t) (l : loc) (s : store T)
    (out : string) :
  operator_shl show (submatrix M N parent oi oj : matrix 0 n) s out
  = operator_shl show (submatrix M N parent oi oj : matrix 1 n) s out ∧
  (wf (basematrix l : matrix 0 n) s = true → 0 < n →
   operator_shl show (basematrix l : matrix 0 n) s out = None).
Proof.
  split.
  - unfold operator_shl, print_row. reflexivity.
  - intros Hwf Hn.
    assert (Hrows : s !! l = Some []).
    { cbn [wf] in Hwf. rewrite !andb_true_iff in Hwf. destruct Hwf as [_ Hshape].
      destruct (s !! l) as [rows|]; [|done].
      apply andb_true_iff in Hshape as [Hlen%bool_decide_eq_true_1 _].
      by destruct rows. }
    assert (Hget : get (basematrix l : matrix 0 n) 0%N (index 0) s = None).
    { cbn [get]. rewrite Hrows. reflexivity. }
    assert (Hrow : print_row show (basematrix l : matrix 0 n) 0%N s (out +:+ "[ ")
                   = None).
    { unfold print_row, for_int. destruct n as [|n]; [lia|].
      change (seq 0 (S n)) with (0 :: seq 1 n).
      cbn [for_each]. rewrite Hget. reflexivity. }
    unfold operator_shl. rewrite Hrow. reflexivity.
Qed.

End PrintingProperties.

(** ** Instances *)

(** Each property above that has a premise, applied to concrete
    matrices. *)

Lemma set_then_get_witness :
  let s : store Z := <[0 := [[1; 2]; [3; 4]]%Z]> ∅ in
  let view : matrix 2 2 := submatrix 2 2 (basematrix 0) 1%N 1%N in
  wf view s = true ∧ (0 < N.of_nat 2)%N ∧ (1 < N.of_nat 2)%N ∧
  ∃ s', set view 0%N 1%N 9%Z s = Some (9%Z, s') ∧
        get view 0%N 1%N s' = Some 9%Z.
Proof.
  intros s view. split; [reflexivity|]. split; [reflexivity|].
  split; [reflexivity|].
  apply (set_then_get view 0%N 1%N 9%Z s); reflexivity.
Defined.

Lemma set_keeps_wf_witness :
  let s : store Z := <[0 := [[1; 2]; [3; 4]]%Z]> ∅ in
  let s' : store Z := <[0 := [[9; 2]; [3; 4]]%Z]> s in
  let A : matrix 2 2 := basematrix 0 in
  let view : matrix 3 3 := submatrix 2 2 A 1%N 1%N in
  set A 0%N 0%N 9%Z s = Some (9%Z, s') ∧ wf view s' = wf view s.
Proof.
  intros s s' A view. split; [reflexivity|].
  apply (set_keeps_wf A 0%N 0%N 9%Z 9%Z s s' view). reflexivity.
Defined.

Lemma set_seen_through_other_view_witness :
  let s : store Z := <[0 := [[1; 2]; [3; 4]]%Z]> ∅ in
  let parent : matrix 2 2 := basematrix 0 in
  let view1 : matrix 2 2 := submatrix 2 2 parent 1%N 0%N in
  let view2 : matrix 2 2 := submatrix 2 2 parent 0%N 1%N in
  wf parent s = true ∧ 0 < 2 ∧
  (size_add 0 1 mod N.of_nat 2 = size_add 1 0 mod N.of_nat 2)%N ∧
  (size_add 1 0 mod N.of_nat 2 = size_add 0 1 mod N.of_nat 2)%N ∧
  ∃ s', set view1 0%N 1%N 9%Z s = Some (9%Z, s') ∧
        get view2 1%N 0%N s' = Some 9%Z.
Proof.
  intros s parent view1 view2.
  split; [reflexivity|]. split; [lia|]. split; [reflexivity|].
  split; [reflexivity|].
  apply (set_seen_through_other_view (m:=2) (n:=2) (m':=2) (n':=2)
           parent 1%N 0%N 0%N 1%N 0%N 1%N 1%N 0%N 9%Z s);
    (reflexivity || lia).
Defined.

Lemma set_twice_witness :
  let s : store Z := <[0 := [[1; 2]; [3; 4]]%Z]> ∅ in
  let s1 : store Z := <[0 := [[1; 7]; [3; 4]]%Z]> s in
  let A : matrix 2 2 := basematrix 0 in
  set A 0%N 1%N 7%Z s = Some (7%Z, s1) ∧
  set A 0%N 1%N 9%Z s1 = set A 0%N 1%N 9%Z s.
Proof.
  intros s s1 A. split; [reflexivity|].
  apply (set_twice A 0%N 1%N 7%Z 9%Z 7%Z s s1). reflexivity.
Defined.

Lemma set_commute_witness :
  let s : store Z := <[0 := [[1; 2]; [3; 4]]%Z]> ∅ in
  let A : matrix 2 2 := basematrix 0 in
  let view : matrix 2 2 := submatrix 2 2 A 1%N 1%N in
  resolve A 0%N 0%N ≠ resolve view 0%N 0%N ∧
  (r ← set A 0%N 0%N 7%Z s; snd <$> set view 0%N 0%N 9%Z r.2)
  = (r ← set view 0%N 0%N 9%Z s; snd <$> set A 0%N 0%N 7%Z r.2).
Proof.
  intros s A view.
  assert (Hne : resolve A 0%N 0%N ≠ resolve view 0%N 0%N) by discriminate.
  split; [exact Hne|].
  apply (set_commute A view 0%N 0%N 0%N 0%N 7%Z 9%Z s Hne).
Defined.

Lemma basematrix_bounds_witness :
  let s : store Z := <[0 := [[1; 2; 3]; [4; 5; 6]]%Z]> ∅ in
  wf (basematrix 0 : matrix 2 3) s = true ∧
  (is_Some (get (basematrix 0 : matrix 2 3) 2%N 0%N s)
     ↔ (2 < N.of_nat 2)%N ∧ (0 < N.of_nat 3)%N) ∧
  (is_Some (set (basematrix 0 : matrix 2 3) 2%N 0%N 9%Z s)
     ↔ (2 < N.of_nat 2)%N ∧ (0 < N.of_nat 3)%N).
Proof.
  intros s. split; [reflexivity|].
  apply (basematrix_bounds (m:=2) (n:=3) 0 2%N 0%N 9%Z s). reflexivity.
Defined.

Lemma submatrix_total_witness :
  let s : store Z := <[0 := [[1; 2]; [3; 4]]%Z]> ∅ in
  let parent : matrix 2 2 := basematrix 0 in
  wf parent s = true ∧ 0 < 2 ∧
  is_Some (get (submatrix 2 2 parent 5%N 7%N : matrix 1 1) 100%N 200%N s) ∧
  is_Some (set (submatrix 2 2 parent 5%N 7%N : matrix 1 1) 100%N 200%N 9%Z s).
Proof.
  intros s parent. split; [reflexivity|]. split; [lia|].
  apply (submatrix_total (m:=1) (n:=1) parent 5%N 7%N 100%N 200%N 9%Z s);
    (reflexivity || lia).
Defined.

Lemma submatrix_offset_periodic_witness :
  let s : store Z := <[0 := [[1; 2; 3]; [4; 5; 6]]%Z]> ∅ in
  let parent : matrix 2 3 := basematrix 0 in
  (1 + 1 + N.of_nat 2 < SIZE_MODULUS)%N ∧ (0 + 2 + N.of_nat 3 < SIZE_MODULUS)%N ∧
  get (submatrix 2 3 parent (1 + N.of_nat 2) (2 + N.of_nat 3) : matrix 2 3)%N
      1%N 0%N s
  = get (submatrix 2 3 parent 1%N 2%N : matrix 2 3) 1%N 0%N s.
Proof.
  intros s parent. split; [reflexivity|]. split; [reflexivity|].
  apply (submatrix_offset_periodic (m:=2) (n:=3) parent 1%N 2%N 1%N 0%N 9%Z s);
    reflexivity.
Defined.

Lemma submatrix_of_submatrix_witness :
  let s : store Z := <[0 := [[1; 2; 3]; [4; 5; 6]]%Z]> ∅ in
  let parent : matrix 2 3 := basematrix 0 in
  let inner : matrix 2 3 := submatrix 2 3 parent 1%N 2%N in
  (0 + 1 + 1 < SIZE_MODULUS)%N ∧ (1 + 2 + 2 < SIZE_MODULUS)%N ∧
  get (submatrix 2 3 inner 1%N 2%N : matrix 1 2) 0%N 1%N s
  = get (submatrix 2 3 parent (1 + 1) (2 + 2) : matrix 1 2)%N 0%N 1%N s.
Proof.
  intros s parent inner. split; [reflexivity|]. split; [reflexivity|].
  apply (submatrix_of_submatrix (m:=1) (n:=2) parent 1%N 2%N 1%N 2%N 0%N 1%N
           9%Z s); reflexivity.
Defined.

Lemma basematrix_fill_spec_witness :
  let s : store Z := <[0 := [[1; 2]; [3; 4]]%Z]> ∅ in
  fits 1 = true ∧ fits 1 = true ∧
  ∃ l s', basematrix_fill 1 1 2%Z s = (basematrix l, s') ∧
          s !! l = None ∧
          wf (basematrix l : matrix 1 1) s' = true ∧
          (∀ i j, i < 1 → j < 1 →
             get (basematrix l : matrix 1 1) (index i) (index j) s' = Some 2%Z) ∧
          (∀ m' n' (q : matrix m' n') i j, is_Some (get q i j s) →
             get q i j s' = get q i j s).
Proof.
  intros s. split; [reflexivity|]. split; [reflexivity|].
  apply (basematrix_fill_spec 1 1 2%Z s); reflexivity.
Defined.

Lemma basematrix_of_ptr_row_major_witness :
  let ptr := [1; 0; 4; 0; 2; 0; 0; 0; 3]%Z in
  fits 3 = true ∧ 3 * 3 ≤ length ptr ∧
  ∃ l s', basematrix_of_ptr 3 3 ptr ∅ = Some (basematrix l, s') ∧
          (∅ : store Z) !! l = None ∧
          wf (basematrix l : matrix 3 3) s' = true ∧
          (∀ i j, i < 3 → j < 3 →
             get (basematrix l : matrix 3 3) (index i) (index j) s'
             = ptr !! (i * 3 + j)) ∧
          (∀ m' n' (q : matrix m' n') i j, is_Some (get q i j (∅ : store Z)) →
             get q i j s' = get q i j ∅).
Proof.
  intros ptr. split; [reflexivity|]. split; [simpl; lia|].
  apply (basematrix_of_ptr_row_major 3 3 ptr ∅); (reflexivity || (simpl; lia)).
Defined.



Lemma matmul_matadd_keep_wf_witness :
  let s : store Z := <[0 := [[1; 1]; [1; 1]]%Z]> ∅ in
  let s' : store Z := <[0 := [[2; 3]; [3; 10]]%Z]> s in
  let A : matrix 2 2 := basematrix 0 in
  let view : matrix 4 4 := submatrix 2 2 A 0%N 0%N in
  matmul A A A s = Some s' ∧ wf view s' = wf view s.
Proof.
  intros s s' A view. split; [reflexivity|].
  destruct (matmul_matadd_keep_wf (T:=Z)) as [Hmul _].
  apply (Hmul 2 2 2 A A A s s' 4 4 view). reflexivity.
Defined.




Lemma det_view_columns_witness :
  let s : store Z := <[0 := [[2; 0; 1]; [1; 3; 2]; [1; 1; 1]]%Z]> ∅ in
  let A : matrix 3 3 := basematrix 0 in
  (2 * N.of_nat 3 ≤ SIZE_MODULUS)%N ∧ 1 < 3 ∧ 0 < 2 ∧
  get (submatrix 3 3 A 1%N (index (1 + 1)) : matrix 2 2) (index 0) (index 0) s
  = get A (index (0 + 1)) (index ((1 + 1 + 0) mod 3)) s
  ∧ (1 + 1 + 0) mod 3 ≠ 1.
Proof.
  intros s A. split; [discriminate|]. split; [lia|]. split; [lia|].
  apply (det_view_columns (k:=1) A 1 0 0 s); (discriminate || lia).
Defined.




Lemma cmppred_monotone_witness :
  let s : store Z := <[0 := [[1; 2]; [3; 4]]%Z]> ∅ in
  let A : matrix 2 2 := basematrix 0 in
  (∀ x y, Z.eqb x y = true → Z.leb x y = true) ∧
  cmppred A A Z.eqb s = Some true ∧ cmppred A A Z.leb s = Some true.
Proof.
  intros s A.
  assert (Himp : ∀ x y, Z.eqb x y = true → Z.leb x y = true).
  { intros x y Hxy. apply Z.eqb_eq in Hxy. apply Z.leb_le. lia. }
  split; [exact Himp|]. split; [reflexivity|].
  apply (cmppred_monotone A A Z.eqb Z.leb s Himp). reflexivity.
Defined.

Lemma cmppred_of_operator_eq_witness :
  let s : store Z := <[0 := [[1; 2]; [3; 4]]%Z]> (<[1 := [[4; 3]; [2; 1]]%Z]> ∅) in
  let A : matrix 2 2 := basematrix 0 in
  let B : matrix 2 2 := submatrix 2 2 (basematrix 1) 1%N 1%N in
  (∀ x, Z.leb x x = true) ∧ operator_eq A B s = Some true ∧
  cmppred A B Z.leb s = Some true.
Proof.
  intros s A B. split; [exact Z.leb_refl|]. split; [reflexivity|].
  apply (cmppred_of_operator_eq A B Z.leb s Z.leb_refl). reflexivity.
Defined.


Lemma operator_shl_entries_witness :
  let s : store Z := <[0 := [[1; 2]; [3; 4]]%Z]> (<[1 := [[4; 3]; [2; 1]]%Z]> ∅) in
  let A : matrix 2 2 := basematrix 0 in
  let B : matrix 2 2 := submatrix 2 2 (basematrix 1) 1%N 1%N in
  let show : Z → string := λ _, "x" in
  0 < 2 ∧ wf A s = true ∧ agree A s B s ∧
  is_Some (operator_shl show A s "") ∧
  operator_shl show A s "" = operator_shl show B s "".
Proof.
  intros s A B show.
  assert (HAB : agree A s B s) by (apply agree_2x2; reflexivity).
  split; [lia|]. split; [reflexivity|]. split; [exact HAB|].
  destruct (operator_shl_entries show A B s s "") as [Hdef Hext]; [lia|].
  split; [apply Hdef; reflexivity|apply Hext; exact HAB].
Defined.

Lemma operator_shl_no_rows_witness :
  let s : store Z := <[0 := []]> ∅ in
  wf (basematrix 0 : matrix 0 2) s = true ∧ 0 < 2 ∧
  operator_shl (λ _ : Z, "x") (basematrix 0 : matrix 0 2) s "" = None.
Proof.
  intros s. split; [reflexivity|]. split; [lia|].
  destruct (operator_shl_no_rows (n:=2) (M:=1) (N:=1) (λ _ : Z, "x")
              (basematrix 0) 0%N 0%N 0 s "") as [_ Hnone].
  apply Hnone; [reflexivity|lia].
Defined.
